(** * f5-threading: the sorted-vector map and the eventfd job limiter

    A shallow embedding of [include/f5/threading/map.hpp] and
    [include/f5/threading/eventfd.hpp], with the properties of the
    specification stated and proved over it.

    Conventions of the embedding:
    - a [std::vector<std::pair<K, V>>] is a [list (K * V)]; an iterator into
      it is the index of the element it designates, [map.end()] being the
      length of the list; a [V*] or [V&] into the vector is the index of the
      slot that holds the value;
    - a [uint64_t] is a [Z] kept in [0, 2^64) with the wrap-around written
      out; an [int64_t] is a [Z] in [-2^63, 2^63);
    - the mutex of [tsmap] makes every member function atomic, so each one is
      a function from the vector before the call to the vector after it;
    - the reactor is cooperative: the other tasks run only while the task
      at hand is suspended in a read of the descriptor.  A [yield_context]
      is therefore a list of rounds, one for each time the task is found
      suspended, each round listing what the other tasks do before the
      reactor looks at the descriptor again. *)

From Stdlib Require Import ZArith Lia OrdersEx.
From stdpp Require Import base decidable option list sorting gmap strings.
From Equations Require Import Equations.

Local Open Scope Z_scope.

(** ** The thread safe map of map.hpp *)

Module Tsmap.

Section tsmap.
(** [K] comes with [operator<] and [operator==]: a decidable relation and
    decidable equality. *)
Context {K V : Type}.
Context `{EqDecision K}.
Context (key_lt : relation K) `{!RelDecision key_lt}.

(** [std::vector<std::pair<K, V>> map] is a [list (K * V)] throughout. *)

(** The comparison handed to [std::lower_bound]:
    [[](const auto &l, auto r) { return l.first < r; }] *)
Definition comp (l : K * V) (r : K) : bool := bool_decide (key_lt l.1 r).

(** [std::lower_bound(first, first + len, k, comp)], the loop of the
    standard library: halve the range, keep the right part when the middle
    element compares less than [k] and the left part otherwise.
<<
    while (len > 0) {
        half = len >> 1; middle = first + half;
        if (comp(middle[0], k)) { first = middle + 1; len = len - half - 1; }
        else len = half;
    }
    return first;
>>
    The middle element always lies inside the range, so the [None] branch
    of the lookup is not reached from [lower_bound] below. *)
Equations? lower_bound_loop (map : list (K * V)) (k : K) (first len : nat) : nat
  by wf len Nat.lt :=
  lower_bound_loop map k first 0%nat := first;
  lower_bound_loop map k first (S n) with map !! (first + S n / 2)%nat => {
    | Some middle with comp middle k => {
        | true := lower_bound_loop map k (first + S n / 2 + 1)%nat
                                         (S n - S n / 2 - 1)%nat;
        | false := lower_bound_loop map k first (S n / 2)%nat };
    | None := first }.
Proof.
  - lia.
  - change (S n / 2 < S n)%nat. apply Nat.div_lt; lia.
Qed.

(** [tsmap::lower_bound]: return the lower bound for the key *)
Definition lower_bound (map : list (K * V)) (k : K) : nat :=
  lower_bound_loop map k 0%nat (length map).

(** [map.end()] *)
Definition vend (map : list (K * V)) : nat := length map.

(** [tsmap::find]: "Return a pointer to the value if found. If not found
    then return nullptr".  [None] is [nullptr], [Some i] the address of
    the [second] of slot [i]. *)
Definition find (k : K) (map : list (K * V)) : option nat :=
  let found := lower_bound map k in
  if decide (found = vend map) then None else Some found.

(** What a pointer or reference returned by the map designates. *)
Definition deref (map : list (K * V)) (p : nat) : option V := snd <$> map !! p.

(** The key stored next to it. *)
Definition key_at (map : list (K * V)) (p : nat) : option K := fst <$> map !! p.

(** [map.emplace(bound, ...)]: insert before position [bound], shifting the
    rest; the iterator returned designates the new element, at [bound]. *)
Definition emplace (bound : nat) (kv : K * V) (map : list (K * V)) : list (K * V) :=
  take bound map ++ kv :: drop bound map.

(** [bound != map.end() && bound->first == k] *)
Definition holds_key (map : list (K * V)) (bound : nat) (k : K) : bool :=
  bool_decide (bound ≠ vend map)
  && match map !! bound with
     | Some entry => bool_decide (entry.1 = k)
     | None => false
     end.

(** [tsmap::emplace_if_not_found]: the value is built from the arguments,
    [construct args] standing for [V(args...)], only on the insertion
    path.  Returns the reference and the vector after the call. *)
Definition emplace_if_not_found {Args : Type} (construct : Args → V)
    (k : K) (args : Args) (map : list (K * V)) : nat * list (K * V) :=
  let bound := lower_bound map k in
  if holds_key map bound k then (bound, map)
  else (bound, emplace bound (k, construct args) map).

(** [tsmap::add_if_not_found]: [lambda] is a callable of the caller; it
    may have effects, so it is a transition on a state [St] of the caller
    that also yields the value.  It runs only on the insertion path. *)
Definition add_if_not_found {St : Type} (k : K) (lambda : St → V * St)
    (map : list (K * V)) (s : St) : nat * list (K * V) * St :=
  let bound := lower_bound map k in
  if holds_key map bound k then (bound, map, s)
  else let '(v, s') := lambda s in (bound, emplace bound (k, v) map, s').

(** A factory instrumented with a counter of its invocations. *)
Definition counting {St : Type} (lambda : St → V * St)
    (sn : St * nat) : V * (St * nat) :=
  let '(v, s') := lambda sn.1 in (v, (s', S sn.2)).

(** The invariant of the data model: the keys ascend strictly along the
    vector, which also makes them pairwise different. *)
Definition sorted (map : list (K * V)) : Prop := StronglySorted key_lt map.*1.

(** [k] is the key of some entry. *)
Definition present (k : K) (map : list (K * V)) : Prop := k ∈ map.*1.

(** The calls a client can make, [St] being the state its factories act
    on and [Args] what it passes to the constructor of [V]. *)
Inductive call {Args St : Type} : Type :=
| CallFind (k : K)
| CallEmplace (k : K) (args : Args)
| CallAdd (k : K) (lambda : St → V * St).

Definition do_call {Args St : Type} (construct : Args → V)
    (ms : list (K * V) * St) (c : @call Args St) : list (K * V) * St :=
  match c with
  | CallFind k => let _ := find k ms.1 in ms
  | CallEmplace k args => ((emplace_if_not_found construct k args ms.1).2, ms.2)
  | CallAdd k lambda =>
      let '(_, map', s') := add_if_not_found k lambda ms.1 ms.2 in (map', s')
  end.

(** The vector after a sequence of calls on a freshly constructed map. *)
Definition after_calls {Args St : Type} (construct : Args → V)
    (calls : list (@call Args St)) (s : St) : list (K * V) * St :=
  foldl (do_call construct) ([], s) calls.

End tsmap.

End Tsmap.

(** ** The eventfd channel and the job limiter of eventfd.hpp *)

Module Eventfd.

(** *** Machine integers *)

Definition UINT64_MAX : Z := 2 ^ 64 - 1.

(** [uint64_t] arithmetic: the result taken modulo 2^64. *)
Definition wrap64 (z : Z) : Z := z mod 2 ^ 64.

(** The conversions of [fd::async_read], which reads a [uint64_t] and
    returns it as [int64_t], and of its callers, which store the result in a
    [uint64_t] again. *)
Definition to_int64 (z : Z) : Z := (z + 2 ^ 63) mod 2 ^ 64 - 2 ^ 63.
Definition to_uint64 (z : Z) : Z := wrap64 z.

(** *** The kernel object behind the descriptor *)

(** Modelled from the spec: the counter that [::eventfd(0, 0)] creates is an
    object of the kernel and not code of the repository.  The spec describes
    it as a counter with a non-blocking increment and a read-and-reset that is
    possible once the count is nonzero, exchanged as 8 bytes (sections 2, 4.1
    and 6); eventfd(2) adds the limits: the value 2^64-1 is refused with
    [EINVAL], and a write that would take the counter above 2^64-2 does not
    complete until a read has made room.

    [counter] is the count in the kernel.  [written] is a history for the
    statements below, the values handed to [async_write] on this descriptor,
    oldest first; the code has no such field. *)
Record fd : Type := mk_fd { counter : Z; written : list Z }.

(** [fd(ios)]: a new descriptor, [initval = 0]. *)
Definition fd_create : fd := {| counter := 0; written := [] |}.

Inductive errno : Type := EINVAL.

Inductive write_result : Type :=
| Written (f : fd)
| Refused (e : errno)
| WouldBlock.

(** Modelled from the spec: the write of the kernel counter, which "adds
    [count] to the channel", with the two limits of eventfd(2). *)
Definition eventfd_write (v : Z) (f : fd) : write_result :=
  if v =? UINT64_MAX then Refused EINVAL
  else if UINT64_MAX - 1 <? counter f + v then WouldBlock
  else Written {| counter := counter f + v; written := written f |}.

(** Modelled from the spec: the read of the kernel counter, "read-and-reset,
    returns the accumulated count", possible once the count is nonzero.
    [None]: nothing to read yet, the reader is not resumed. *)
Definition eventfd_read (f : fd) : option (Z * fd) :=
  if counter f =? 0 then None
  else Some (counter f, {| counter := 0; written := written f |}).

(** *** [class fd] *)

(** How an [async_write] of 8 bytes ends: the [(error, bytes)] its handler
    receives, or no completion as long as the kernel does not take the
    write.  A pending write is not followed further: the statements that
    depend on the count assume the limits of the kernel are not reached. *)
Inductive completion : Type :=
| Completed (error : option errno) (bytes : Z)
| Pending.

(** [boost::asio::async_write(fd, buffer(&count, sizeof(count)), handler)],
    the buffer holding [count] when the write is started. *)
Definition async_write (count : Z) (f : fd) : fd * completion :=
  let f := {| counter := counter f; written := written f ++ [count] |} in
  match eventfd_write count f with
  | Written f' => (f', Completed None 8)
  | Refused e => (f, Completed (Some e) 0)
  | WouldBlock => (f, Pending)
  end.

(** [fd::async_read], once the descriptor is readable: "Read the current
    value from the file descriptor."  The [uint64_t count] leaves as
    [int64_t].  [None] while there is nothing to read; the suspension
    itself is in the callers below, which own the [yield]. *)
Definition async_read (f : fd) : option (Z * fd) :=
  match eventfd_read f with
  | Some (count, f') => Some (to_int64 count, f')
  | None => None
  end.

(** *** [class unlimited] *)

Record unlimited : Type := mk_unlimited { ufd : fd }.

(** [unlimited::produced]: the handler is empty, whatever the write ends
    with is dropped. *)
Definition produced (count : Z) (u : unlimited) : unlimited :=
  let '(f', _) := async_write count (ufd u) in {| ufd := f' |}.

(** A sequence of [produced] calls, first to last.  A round of the other
    tasks of a channel is such a sequence. *)
Definition produce_all (counts : list Z) (u : unlimited) : unlimited :=
  foldl (λ u count, produced count u) u counts.

(** The units a sequence of [produced] calls sends. *)
Definition total (counts : list Z) : Z := foldr Z.add 0 counts.

(** [unlimited::consume]: "Return how much to consume. Yields until there
    is something available."  While the descriptor is not readable the task
    stays suspended and the next round of the other tasks runs; [None] when
    the rounds are used up before anything arrived. *)
Fixpoint consume (yield : list (list Z)) (u : unlimited)
    : option (Z * unlimited * list (list Z)) :=
  match async_read (ufd u) with
  | Some (r, f') => Some (to_uint64 r, {| ufd := f' |}, yield)
  | None =>
      match yield with
      | [] => None
      | round :: yield' => consume yield' (produce_all round u)
      end
  end.

(** *** [class limiter] *)

Record limiter : Type := mk_limiter {
  lfd : fd;                (* eventfd::fd fd *)
  m_limit : Z;             (* std::atomic<uint64_t> m_limit *)
  m_outstanding : Z        (* std::atomic<uint64_t> m_outstanding *)
}.

(** [limiter(ios, limit)] *)
Definition limiter_create (limit : Z) : limiter :=
  {| lfd := fd_create; m_limit := limit; m_outstanding := 0 |}.

(** [limiter::increase_limit]: [return m_limit += l;] *)
Definition increase_limit (d : Z) (l : limiter) : Z * limiter :=
  let v := wrap64 (m_limit l + d) in
  (v, {| lfd := lfd l; m_limit := v; m_outstanding := m_outstanding l |}).

(** [limiter::decrease_limit]: [return m_limit -= l;] *)
Definition decrease_limit (d : Z) (l : limiter) : Z * limiter :=
  let v := wrap64 (m_limit l - d) in
  (v, {| lfd := lfd l; m_limit := v; m_outstanding := m_outstanding l |}).

(** [limiter::limit] and [limiter::outstanding] are the projections
    [m_limit] and [m_outstanding]. *)

(** The write of a completing job as the limiter sees it. *)
Definition signal (l : limiter) : limiter * completion :=
  let '(f', c) := async_write 1 (lfd l) in
  ({| lfd := f'; m_limit := m_limit l; m_outstanding := m_outstanding l |}, c).

(** What the other tasks can do to a limiter while this one is suspended:
    complete a job of this limiter, or move the limit. *)
Inductive action : Type :=
| Signal
| IncreaseLimit (d : Z)
| DecreaseLimit (d : Z).

Definition run_action (l : limiter) (a : action) : limiter :=
  match a with
  | Signal => (signal l).1
  | IncreaseLimit d => (increase_limit d l).2
  | DecreaseLimit d => (decrease_limit d l).2
  end.

Definition run_round (round : list action) (l : limiter) : limiter :=
  foldl run_action l round.

Definition run_rounds (rounds : list (list action)) (l : limiter) : limiter :=
  foldl (λ l round, run_round round l) l rounds.

(** The body of [limiter::wait] after the read:
    [m_outstanding -= count; return count;] *)
Definition subtract (r : Z) (f' : fd) (l : limiter) : Z * limiter :=
  let count := to_uint64 r in
  (count, {| lfd := f'; m_limit := m_limit l;
             m_outstanding := wrap64 (m_outstanding l - count) |}).

(** [limiter::wait]: "Wait until at least one job has completed. Returns
    the number of jobs that have completed."  [None] when the rounds are
    used up with the task still suspended in the read. *)
Fixpoint wait (yield : list (list action)) (l : limiter)
    : option (Z * limiter * list (list action)) :=
  match async_read (lfd l) with
  | Some (r, f') => let '(count, l') := subtract r f' l in Some (count, l', yield)
  | None =>
      match yield with
      | [] => None
      | round :: yield' => wait yield' (run_round round l)
      end
  end.

(** A bound on the number of times a loop around [wait] can call it: every
    call but the first finds the descriptor reset and uses up a round. *)
Definition turns (yield : list (list action)) (l : limiter) : nat :=
  (length yield + if (counter (lfd l) =? 0)%Z then 1 else 2)%nat.

(** *** [class limiter::job] *)

(** [limit] is the reference to the owning limiter: its address in the
    store of limiters. *)
Record job : Type := mk_job { completed : bool; limit : nat }.

(** [job(limiter &l) : completed(false), limit(l)] *)
Definition job_create (l : nat) : job := {| completed := false; limit := l |}.

(** The handler [done] passes to [async_write]:
    [if ( error || bytes != sizeof(uint64_t) ) efn(error, bytes);]
    [efn] acts on a state [E] of the caller. *)
Definition on_write {E : Type} (efn : option errno → Z → E → E)
    (c : completion) (e : E) : E :=
  match c with
  | Completed error bytes =>
      if bool_decide (error ≠ None) || negb (bytes =? 8) then efn error bytes e
      else e
  | Pending => e
  end.

(** [job::done]: "Signal that the job is completed, if not already done so".
    The store maps the address of each live limiter to its state; a job
    whose limiter is gone has a dangling reference, which the model leaves
    without effect. *)
Definition done {E : Type} (efn : option errno → Z → E → E)
    (j : job) (σ : gmap nat limiter) (e : E) : job * gmap nat limiter * E :=
  if completed j then (j, σ, e)
  else
    let j' := {| completed := true; limit := limit j |} in
    match σ !! limit j with
    | Some l => let '(l', c) := signal l in (j', <[limit j := l']> σ, on_write efn c e)
    | None => (j', σ, e)
    end.

(** The handler of the destructor, [[](auto, auto){}]. *)
Definition no_op {E : Type} : option errno → Z → E → E := λ _ _ e, e.

(** [job::~job]: [done([](auto, auto){});] *)
Definition destroy {E : Type} (j : job) (σ : gmap nat limiter) (e : E)
    : job * gmap nat limiter * E :=
  done no_op j σ e.

(** A job from [next_job] to its destruction: the explicit [done] calls of
    its owner, each with its handler, then the destructor. *)
Definition lifetime {E : Type} (efns : list (option errno → Z → E → E))
    (j : job) (σ : gmap nat limiter) (e : E) : job * gmap nat limiter * E :=
  let '(j', σ', e') :=
    foldl (λ '(j, σ, e) efn, done efn j σ e) (j, σ, e) efns in
  destroy j' σ' e'.

(** *** The loops of the limiter *)

(** How a call that may suspend ends within the rounds given. *)
Inductive outcome (A : Type) : Type :=
| Returns (a : A) (l : limiter) (yield : list (list action))
| Suspended
| OutOfFuel.
Arguments Returns {A} a l yield.
Arguments Suspended {A}.
Arguments OutOfFuel {A}.

(** [if ( not limit || m_outstanding.load() < limit ) break;] *)
Definition admits (l : limiter) : bool :=
  let limit := m_limit l in
  (limit =? 0) || (m_outstanding l <? limit).

(** [++m_outstanding; return std::unique_ptr<job>(new job( *this ));] *)
Definition add_job (this : nat) (l : limiter) : job * limiter :=
  (job_create this,
   {| lfd := lfd l; m_limit := m_limit l;
      m_outstanding := wrap64 (m_outstanding l + 1) |}).

(** [limiter::next_job], [this] being the address of the limiter.  Each
    turn of [while ( true )] takes one unit of fuel. *)
Fixpoint next_job_loop (fuel : nat) (this : nat) (yield : list (list action))
    (l : limiter) : outcome job :=
  match fuel with
  | O => OutOfFuel
  | S fuel =>
      if admits l then let '(j, l') := add_job this l in Returns j l' yield
      else
        match wait yield l with
        | Some (_, l', yield') => next_job_loop fuel this yield' l'
        | None => Suspended
        end
  end.

(** A turn that does not leave the loop reads the descriptor, and only the
    first one can find it readable without using up a round: two turns more
    than there are rounds always suffice. *)
Definition next_job (this : nat) (yield : list (list action)) (l : limiter)
    : outcome job :=
  next_job_loop (length yield + 2) this yield l.

(** [limiter::wait_for_all_outstanding]:
    [while ( m_outstanding ) wait(yield);] *)
Fixpoint wait_for_all_outstanding_loop (fuel : nat)
    (yield : list (list action)) (l : limiter) : outcome unit :=
  match fuel with
  | O => OutOfFuel
  | S fuel =>
      if negb (m_outstanding l =? 0) then
        match wait yield l with
        | Some (_, l', yield') => wait_for_all_outstanding_loop fuel yield' l'
        | None => Suspended
        end
      else Returns tt l yield
  end.

Definition wait_for_all_outstanding (yield : list (list action)) (l : limiter)
    : outcome unit :=
  wait_for_all_outstanding_loop (length yield + 2) yield l.

End Eventfd.

(** ** The comparisons of the binary search *)

Module TsmapCost.
Import Tsmap.

Section cost.
Context {K V : Type}.
Context (key_lt : relation K) `{!RelDecision key_lt}.

(** One more call of [comp] on the way to the result. *)
Definition compared (rc : nat * nat) : nat * nat := (rc.1, S rc.2).

(** [lower_bound_loop] with the calls of [comp] counted: the same loop,
    the second component being the number of times it evaluated
    [comp(middle[0], k)]. *)
Equations? lower_bound_loop_counted (map : list (K * V)) (k : K)
    (first len : nat) : nat * nat by wf len Nat.lt :=
  lower_bound_loop_counted map k first 0%nat := (first, 0%nat);
  lower_bound_loop_counted map k first (S n)
    with map !! (first + S n / 2)%nat => {
    | Some middle with comp key_lt middle k => {
        | true := compared (lower_bound_loop_counted map k
                              (first + S n / 2 + 1)%nat (S n - S n / 2 - 1)%nat);
        | false := compared (lower_bound_loop_counted map k first (S n / 2)%nat) };
    | None := (first, 0%nat) }.
Proof.
  - lia.
  - change (S n / 2 < S n)%nat. apply Nat.div_lt; lia.
Qed.

End cost.

End TsmapCost.

(** ** Callers of the limiter *)

Module EventfdDrivers.
Import Eventfd.

(** The two counters of a limiter hold [uint64_t] values. *)
Definition in_range (l : limiter) : Prop :=
  0 ≤ m_limit l < 2 ^ 64 ∧ 0 ≤ m_outstanding l < 2 ^ 64.

(** A caller of the limiter: a task that calls [next_job] [n] times in a
    row and keeps the jobs, while no other task runs.  [None] when one of
    the calls does not return. *)
Fixpoint next_jobs (n : nat) (this : nat) (l : limiter) : option limiter :=
  match n with
  | O => Some l
  | S n =>
      match next_job this [] l with
      | Returns _ l' _ => next_jobs n this l'
      | _ => None
      end
  end.

(** A round in which [c] jobs of the limiter complete. *)
Definition completions (c : nat) : list action := replicate c Signal.

End EventfdDrivers.

(** ** Concrete instances used in the examples *)

Module Scenario.
Import Tsmap Eventfd.

(** Integer keys: [<] on [Z] is a strict total order. *)
#[export] Instance Z_lt_trichotomy : Trichotomy Z.lt := Z.lt_trichotomy.

(** A map with integer keys and values, the value built from the one
    constructor argument: the state after [emplace_if_not_found(2, 20)] on a
    fresh map. *)
Definition zmap_after_2_20 : list (Z * Z) :=
  (emplace_if_not_found Z.lt id 2 20 []).2.

(** A map holding the keys 1 and 3. *)
Definition zmap_1_3 : list (Z * Z) := [(1, 10); (3, 30)].

(** String keys in the order of [std::string]: lexicographic by character
    code. *)
Definition string_lt : relation string := String_as_OT.lt.

#[export] Instance string_lt_dec : RelDecision string_lt.
Proof. intros x y. unfold string_lt, String_as_OT.lt. solve_decision. Defined.

#[export] Instance string_lt_strict : StrictOrder string_lt :=
  String_as_OT.lt_strorder.

#[export] Instance string_lt_trichotomy : Trichotomy string_lt.
Proof.
  intros x y. unfold string_lt.
  destruct (String_as_OT.compare_spec x y) as [H|H|H]; auto.
Qed.

(** A limiter with limit 2 and both jobs admitted. *)
Definition full_limiter : limiter :=
  {| lfd := fd_create; m_limit := 2; m_outstanding := 2 |}.

End Scenario.

(** * Properties of the map *)

Module TsmapFacts.
Import Tsmap Scenario.

Section order.
Context {A : Type} (R : relation A).

Lemma StronglySorted_lookup_lt (l : list A) (i j : nat) (x y : A) :
  StronglySorted R l → l !! i = Some x → l !! j = Some y → (i < j)%nat → R x y.
Proof.
  intros Hs. revert i j.
  induction Hs as [|a l Hs IH Hall]; intros i j Hi Hj Hlt.
  - by rewrite lookup_nil in Hi.
  - destruct j as [|j]; [lia|]. destruct i as [|i]; simpl in *.
    + injection Hi as <-. rewrite Forall_lookup in Hall. by eapply Hall.
    + eapply IH; eauto. lia.
Qed.
End order.

Section facts.
Context {K V : Type} `{EqDecision K}.
Context (key_lt : relation K) `{!RelDecision key_lt}.
Context `{!StrictOrder key_lt}.
Implicit Types (map : list (K * V)) (k : K).

Lemma sorted_lookup_lt map i j a b :
  sorted key_lt map → map !! i = Some a → map !! j = Some b → (i < j)%nat →
  key_lt a.1 b.1.
Proof.
  intros Hs Hi Hj Hlt.
  eapply (StronglySorted_lookup_lt key_lt (map.*1) i j); eauto;
    rewrite list_lookup_fmap; by (rewrite Hi || rewrite Hj).
Qed.

(** The loop keeps the range that brackets the answer. *)
Lemma lower_bound_loop_spec map k first len :
  sorted key_lt map →
  (first + len ≤ length map)%nat →
  (∀ i e, (i < first)%nat → map !! i = Some e → key_lt e.1 k) →
  (∀ i e, (first + len ≤ i)%nat → map !! i = Some e → ¬ key_lt e.1 k) →
  let r := lower_bound_loop key_lt map k first len in
  (first ≤ r ≤ first + len)%nat
  ∧ (∀ i e, (i < r)%nat → map !! i = Some e → key_lt e.1 k)
  ∧ (∀ i e, (r ≤ i)%nat → map !! i = Some e → ¬ key_lt e.1 k).
Proof.
  intros Hs. revert first.
  induction len as [len IH] using lt_wf_ind. intros first Hlen Hlo Hhi.
  cbv zeta. destruct len as [|n]; simp lower_bound_loop.
  { simpl. split; [lia|]. split; [done|]. intros i e Hi. apply Hhi. lia. }
  pose proof (Nat.div_lt (S n) 2 ltac:(lia) ltac:(lia)) as Hhalf.
  destruct (lookup_lt_is_Some_2 map (first + S n / 2)%nat ltac:(lia)) as [m Hm].
  rewrite Hm. simp lower_bound_loop.
  destruct (comp key_lt m k) eqn:Hcmp; simp lower_bound_loop;
    unfold comp in Hcmp; set (half := (S n / 2)%nat) in *.
  - apply bool_decide_eq_true in Hcmp.
    destruct (IH (S n - half - 1)%nat ltac:(lia) (first + half + 1)%nat)
      as (Hr & Hbelow & Habove).
    + lia.
    + intros i e Hi He.
      destruct (decide (i = first + half)%nat) as [->|Hne].
      * congruence.
      * transitivity m.1; [|done].
        eapply (sorted_lookup_lt map i (first + half)); eauto. lia.
    + intros i e Hi. apply Hhi. lia.
    + split; [lia|]. split; done.
  - apply bool_decide_eq_false in Hcmp.
    destruct (IH half ltac:(lia) first) as (Hr & Hbelow & Habove).
    + lia.
    + done.
    + intros i e Hi He Hlt.
      destruct (decide (i = first + half)%nat) as [->|Hne].
      * congruence.
      * apply Hcmp. transitivity e.1; [|done].
        eapply (sorted_lookup_lt map (first + half) i); eauto. lia.
    + split; [lia|]. split; done.
Qed.

(** On a sorted vector [lower_bound] is the lower bound: every key to
    its left is less than [k], and no key from it on is. *)
Lemma lower_bound_spec map k :
  sorted key_lt map →
  let r := lower_bound key_lt map k in
  (r ≤ length map)%nat
  ∧ (∀ i e, (i < r)%nat → map !! i = Some e → key_lt e.1 k)
  ∧ (∀ i e, (r ≤ i)%nat → map !! i = Some e → ¬ key_lt e.1 k).
Proof.
  intros Hs.
  destruct (lower_bound_loop_spec map k 0 (length map) Hs) as (Hr & Hlo & Hhi).
  - lia.
  - intros i e Hi. lia.
  - intros i e Hi He. apply lookup_lt_Some in He. lia.
  - cbv zeta. unfold lower_bound. split; [lia|]. split; done.
Qed.

Lemma sorted_NoDup map : sorted key_lt map → NoDup map.*1.
Proof.
  unfold sorted. induction 1 as [|a l Hs IH Hall]; constructor; [|done].
  intros Hin. rewrite Forall_forall in Hall.
  by apply (irreflexivity key_lt a), Hall.
Qed.

(** A key of the vector sits exactly at its lower bound. *)
Lemma present_at_lower_bound map k j e :
  sorted key_lt map → map !! j = Some e → e.1 = k →
  lower_bound key_lt map k = j.
Proof.
  intros Hs Hj <-.
  destruct (lower_bound_spec map e.1 Hs) as (Hr & Hlo & Hhi).
  set (r := lower_bound key_lt map e.1) in *.
  destruct (lt_eq_lt_dec r j) as [[Hlt|Heq]|Hgt]; [|done|].
  - destruct (lookup_lt_is_Some_2 map r ltac:(apply lookup_lt_Some in Hj; lia))
      as [m Hm].
    exfalso. apply (Hhi r m ltac:(lia) Hm).
    by eapply (sorted_lookup_lt map r j).
  - exfalso. apply (irreflexivity key_lt e.1). by eapply (Hlo j e).
Qed.

Lemma holds_key_true map bound k :
  holds_key map bound k = true ↔ ∃ v, map !! bound = Some (k, v).
Proof.
  unfold holds_key. rewrite andb_true_iff, bool_decide_eq_true. split.
  - intros [_ Hk]. destruct (map !! bound) as [[k' v]|]; [|done].
    apply bool_decide_eq_true in Hk. simpl in Hk. subst. by exists v.
  - intros [v Hv]. rewrite Hv. split.
    + apply lookup_lt_Some in Hv. unfold vend. lia.
    + by apply bool_decide_eq_true.
Qed.

(** The test of the two insertion functions decides presence. *)
Lemma holds_key_present map k :
  sorted key_lt map →
  holds_key map (lower_bound key_lt map k) k = true ↔ present k map.
Proof.
  intros Hs. rewrite holds_key_true. unfold present. split.
  - intros [v Hv]. apply list_elem_of_fmap. exists (k, v). split; [done|].
    apply list_elem_of_lookup. eauto.
  - intros Hin. apply list_elem_of_fmap in Hin as ([k' v] & Hk & Hin).
    simpl in Hk. subst k. apply list_elem_of_lookup in Hin as [j Hj].
    rewrite (present_at_lower_bound map k' j (k', v)); eauto.
Qed.

Lemma holds_key_absent map k :
  sorted key_lt map →
  holds_key map (lower_bound key_lt map k) k = false ↔ ¬ present k map.
Proof.
  intros Hs. rewrite <- holds_key_present by done.
  by destruct (holds_key _ _ _).
Qed.

Context `{!Trichotomy key_lt}.

(** Where the insertion functions put a new key: everything to the left
    is less, everything to the right greater. *)
Lemma lower_bound_splits map k :
  sorted key_lt map → ¬ present k map →
  let b := lower_bound key_lt map k in
  Forall (λ k', key_lt k' k) (take b map).*1
  ∧ Forall (λ k', key_lt k k') (drop b map).*1.
Proof.
  intros Hs Hk. destruct (lower_bound_spec map k Hs) as (Hr & Hlo & Hhi).
  cbv zeta. set (b := lower_bound key_lt map k) in *.
  split; apply Forall_fmap, Forall_lookup; intros i e He; simpl.
  - apply lookup_take_Some in He as [He Hi]. by eapply Hlo.
  - rewrite lookup_drop in He.
    destruct (trichotomy key_lt e.1 k) as [Hlt|[Heq|Hgt]]; [| |done].
    + exfalso. apply (Hhi (b + i)%nat e ltac:(lia) He Hlt).
    + exfalso. apply Hk. unfold present. rewrite <- Heq.
      apply list_elem_of_fmap_2, list_elem_of_lookup. eauto.
Qed.

Lemma emplace_sorted map k v :
  sorted key_lt map → ¬ present k map →
  sorted key_lt (emplace (lower_bound key_lt map k) (k, v) map).
Proof.
  intros Hs Hk. destruct (lower_bound_splits map k Hs Hk) as [Hl Hr].
  unfold sorted, emplace in *. set (b := lower_bound key_lt map k) in *.
  rewrite <- (take_drop b map), fmap_app in Hs.
  apply StronglySorted_app in Hs as (Hcross & Hsl & Hsr).
  rewrite fmap_app, fmap_cons. simpl.
  apply StronglySorted_app_2; [|done|by constructor].
  rewrite Forall_forall in Hl, Hr.
  intros x1 x2 Hx1 [->|Hx2]%elem_of_cons; [by apply Hl|].
  transitivity k; [by apply Hl | by apply Hr].
Qed.

Lemma emplace_if_not_found_sorted {Args} (construct : Args → V) k args map :
  sorted key_lt map →
  sorted key_lt (emplace_if_not_found key_lt construct k args map).2.
Proof.
  intros Hs. unfold emplace_if_not_found.
  destruct (holds_key _ _ _) eqn:Hh; simpl; [done|].
  apply emplace_sorted; [done|]. by apply holds_key_absent.
Qed.

Lemma add_if_not_found_sorted {St} k (lambda : St → V * St) map s :
  sorted key_lt map →
  sorted key_lt (add_if_not_found key_lt k lambda map s).1.2.
Proof.
  intros Hs. unfold add_if_not_found.
  destruct (holds_key _ _ _) eqn:Hh; simpl; [done|].
  destruct (lambda s) as [v s']. simpl.
  apply emplace_sorted; [done|]. by apply holds_key_absent.
Qed.

Lemma do_call_sorted {Args St} (construct : Args → V) ms (c : @call K V Args St) :
  sorted key_lt ms.1 → sorted key_lt (do_call key_lt construct ms c).1.
Proof.
  intros Hs. destruct c as [k|k args|k lambda]; simpl; [done| |].
  - by apply emplace_if_not_found_sorted.
  - pose proof (add_if_not_found_sorted k lambda ms.1 ms.2 Hs) as H.
    by destruct (add_if_not_found _ _ _ _ _) as [[b map'] s'].
Qed.

Lemma after_calls_sorted {Args St} (construct : Args → V)
    (calls : list (@call K V Args St)) s :
  sorted key_lt (after_calls key_lt construct calls s).1.
Proof.
  unfold after_calls.
  assert (Hnil : sorted key_lt (([] : list (K * V)), s).1) by constructor.
  revert Hnil. generalize (([] : list (K * V)), s).
  induction calls as [|c calls IH]; intros ms Hs; simpl; [done|].
  by apply IH, do_call_sorted.
Qed.

(** What [find] computes on a sorted vector: the first slot whose key is
    not less than [k], whatever that key is. *)
Lemma find_spec map k :
  sorted key_lt map →
  match find key_lt k map with
  | None => Forall (λ k', key_lt k' k) map.*1
  | Some p => ∃ e, map !! p = Some e ∧ ¬ key_lt e.1 k
                   ∧ Forall (λ k', key_lt k' k) (take p map).*1
  end.
Proof.
  intros Hs. destruct (lower_bound_spec map k Hs) as (Hr & Hlo & Hhi).
  unfold find, vend. case_decide as Hend.
  - apply Forall_fmap, Forall_lookup. intros i e He. simpl.
    apply (Hlo i e); [|done]. apply lookup_lt_Some in He. lia.
  - destruct (lookup_lt_is_Some_2 map (lower_bound key_lt map k) ltac:(lia))
      as [e He].
    exists e. split; [done|]. split; [by apply (Hhi _ e (le_n _))|].
    apply Forall_fmap, Forall_lookup. intros i e' He'. simpl.
    apply lookup_take_Some in He' as [He' Hi]. by eapply Hlo.
Qed.

(** The half of the contract of [find] that the code meets. *)
Lemma find_present map k :
  sorted key_lt map → present k map →
  ∃ p v, find key_lt k map = Some p ∧ map !! p = Some (k, v).
Proof.
  intros Hs Hk. apply holds_key_present, holds_key_true in Hk as [v Hv]; [|done].
  exists (lower_bound key_lt map k), v. split; [|done].
  unfold find, vend. case_decide as Hend; [|done].
  apply lookup_lt_Some in Hv. lia.
Qed.

(** The half it misses: with a greater key in the vector, an absent key is
    answered with the slot of its successor. *)
Lemma find_absent_successor map k k' :
  sorted key_lt map → ¬ present k map → present k' map → key_lt k k' →
  ∃ p e, find key_lt k map = Some p ∧ map !! p = Some e ∧ key_lt k e.1.
Proof.
  intros Hs Hk Hk' Hlt. pose proof (find_spec map k Hs) as Hf.
  destruct (find key_lt k map) as [p|].
  - destruct Hf as (e & He & Hnlt & _). exists p, e. split; [done|]. split; [done|].
    destruct (trichotomy key_lt e.1 k) as [?|[Heq|?]]; [done| |done].
    exfalso. apply Hk. unfold present. rewrite <- Heq.
    apply list_elem_of_fmap_2, list_elem_of_lookup. eauto.
  - exfalso. rewrite Forall_forall in Hf.
    apply (irreflexivity key_lt k). transitivity k'; [done|]. by apply Hf.
Qed.

End facts.

(** C1, as the code has it: on the map that holds the single key 2, [find]
    of the absent key 1 does not answer nullptr; it hands out the address of
    the value stored under 2. *)
Theorem find_absent_key_yields_other_value :
  zmap_after_2_20 = [(2, 20)]
  ∧ ¬ present 1 zmap_after_2_20
  ∧ find Z.lt 1 zmap_after_2_20 = Some 0%nat
  ∧ key_at zmap_after_2_20 0 = Some 2
  ∧ deref zmap_after_2_20 0 = Some 20.
Proof.
  assert (Hmap : zmap_after_2_20 = [(2, 20)]) by reflexivity.
  rewrite Hmap. repeat split.
  unfold present. simpl. rewrite list_elem_of_singleton. lia.
Qed.

Section claims.
Context {K V : Type} `{EqDecision K}.
Context (key_lt : relation K) `{!RelDecision key_lt}.
Context `{!StrictOrder key_lt} `{!Trichotomy key_lt}.
Implicit Types (map : list (K * V)) (k : K).

(** C7: after any sequence of [find], [emplace_if_not_found] and
    [add_if_not_found] calls on a fresh map the keys ascend strictly along
    the vector and no key occurs twice; and a call that inserts puts the
    new entry at the lower bound of its key, all smaller keys to its left
    and all greater keys to its right. *)
Theorem after_calls_sorted_unique {Args St} (construct : Args → V)
    (calls : list (@call K V Args St)) (s : St) :
  let map := (after_calls key_lt construct calls s).1 in
  sorted key_lt map
  ∧ NoDup map.*1
  ∧ ∀ k, ¬ present k map →
      let b := lower_bound key_lt map k in
      Forall (λ k', key_lt k' k) (take b map).*1
      ∧ Forall (λ k', key_lt k k') (drop b map).*1
      ∧ (∀ args, emplace_if_not_found key_lt construct k args map
                 = (b, take b map ++ (k, construct args) :: drop b map))
      ∧ (∀ (lambda : St → V * St) s0,
           add_if_not_found key_lt k lambda map s0
           = (b, take b map ++ (k, (lambda s0).1) :: drop b map, (lambda s0).2)).
Proof.
  intros map. assert (Hs : sorted key_lt map)
    by apply (after_calls_sorted key_lt construct calls s).
  split; [done|]. split; [by apply (sorted_NoDup key_lt)|].
  intros k Hk b. destruct (lower_bound_splits key_lt map k Hs Hk) as [Hl Hr].
  apply (holds_key_absent key_lt) in Hk; [|done].
  split; [done|]. split; [done|]. split.
  - intros args. unfold emplace_if_not_found. by rewrite Hk.
  - intros lambda s0. unfold add_if_not_found. rewrite Hk.
    by destruct (lambda s0).
Qed.

(** C8: two [emplace_if_not_found] calls with the same key return the same
    reference; the second call changes nothing and its arguments are not
    used, so it returns the value the first call left under the key (the
    one built from the first arguments when the key was new); before,
    between and after the calls no key occurs twice. *)
Theorem emplace_twice_same_reference {Args} (construct : Args → V)
    map k (args1 args2 : Args) :
  sorted key_lt map →
  let first := emplace_if_not_found key_lt construct k args1 map in
  let second := emplace_if_not_found key_lt construct k args2 first.2 in
  second.1 = first.1
  ∧ second.2 = first.2
  ∧ key_at first.2 first.1 = Some k
  ∧ deref second.2 second.1 = deref first.2 first.1
  ∧ (¬ present k map → deref second.2 second.1 = Some (construct args1))
  ∧ NoDup map.*1 ∧ NoDup first.2.*1 ∧ NoDup second.2.*1.
Proof.
  intros Hs first second.
  assert (Hs1 : sorted key_lt first.2) by by apply (emplace_if_not_found_sorted key_lt).
  assert (Hat : ∃ v, first.2 !! first.1 = Some (k, v)
                     ∧ (¬ present k map → v = construct args1)).
  { subst first. unfold emplace_if_not_found.
    destruct (holds_key _ _ _) eqn:Hh; simpl.
    - apply holds_key_true in Hh as [v Hv]. exists v. split; [done|].
      intros Hk. exfalso. apply Hk, (holds_key_present key_lt); [done|].
      apply holds_key_true. eauto.
    - exists (construct args1). split; [|done]. unfold emplace.
      destruct (lower_bound_spec key_lt map k Hs) as (Hr & _ & _).
      apply list_lookup_middle. rewrite length_take. lia. }
  destruct Hat as (v & Hv & Hnew).
  assert (Hb : lower_bound key_lt first.2 k = first.1)
    by by eapply (present_at_lower_bound key_lt).
  assert (Hsecond : second = (first.1, first.2)).
  { subst second. unfold emplace_if_not_found at 1. rewrite Hb.
    replace (holds_key first.2 first.1 k) with true; [done|].
    symmetry. apply holds_key_true. eauto. }
  rewrite Hsecond. simpl. split; [done|]. split; [done|].
  split; [unfold key_at; by rewrite Hv|]. split; [done|].
  split; [intros Hk; unfold deref; rewrite Hv; simpl; by rewrite Hnew|].
  split; [by apply (sorted_NoDup key_lt)|]. split; by apply (sorted_NoDup key_lt).
Qed.

(** C9: [add_if_not_found] runs the factory exactly once when the key is
    absent and stores what it returned under the key; it does not run it
    when the key is present and then returns the value already stored.
    The invocations are counted by [counting]. *)
Theorem add_if_not_found_factory_calls {St} (lambda : St → V * St)
    map k (s : St) (n : nat) :
  sorted key_lt map →
  let '(r, map', (s', n')) :=
    add_if_not_found key_lt k (counting lambda) map (s, n) in
  (present k map →
     n' = n ∧ s' = s ∧ map' = map ∧ ∃ v, map !! r = Some (k, v))
  ∧ (¬ present k map →
     n' = S n ∧ s' = (lambda s).2
     ∧ map' !! r = Some (k, (lambda s).1)
     ∧ map' = emplace r (k, (lambda s).1) map).
Proof.
  intros Hs. unfold add_if_not_found.
  destruct (holds_key _ _ _) eqn:Hh.
  - split.
    + intros _. apply holds_key_true in Hh. done.
    + intros Hk. apply (holds_key_present key_lt) in Hh; done.
  - unfold counting. simpl. destruct (lambda s) as [v s'] eqn:Hl. simpl. split.
    + intros Hk. apply (holds_key_absent key_lt) in Hh; done.
    + intros _. split; [done|]. split; [done|]. split; [|done].
      unfold emplace.
      destruct (lower_bound_spec key_lt map k Hs) as (Hr & _ & _).
      apply list_lookup_middle. rewrite length_take. lia.
Qed.

(** C10: with the key present, [emplace_if_not_found] and
    [add_if_not_found] return the vector they were given, entry for entry,
    the factory leaves the state of the caller alone, and the reference
    returned designates the entry of the key with the value it had. *)
Theorem present_key_frame {Args St} (construct : Args → V)
    (lambda : St → V * St) map k (args : Args) (s : St) (v : V) (p : nat) :
  sorted key_lt map → map !! p = Some (k, v) →
  emplace_if_not_found key_lt construct k args map = (p, map)
  ∧ add_if_not_found key_lt k lambda map s = (p, map, s)
  ∧ deref map p = Some v.
Proof.
  intros Hs Hp.
  assert (Hb : lower_bound key_lt map k = p)
    by by eapply (present_at_lower_bound key_lt).
  assert (Hh : holds_key map p k = true) by (apply holds_key_true; eauto).
  unfold emplace_if_not_found, add_if_not_found, deref.
  by rewrite Hb, Hh, Hp.
Qed.

End claims.

(** *** The theorems at concrete maps *)

Example zmap_1_3_sorted : sorted Z.lt zmap_1_3.
Proof. unfold sorted, zmap_1_3. simpl. repeat constructor; lia. Qed.

Example zmap_1_3_without_2 : ¬ present 2 zmap_1_3.
Proof.
  unfold present, zmap_1_3. simpl. rewrite !elem_of_cons, elem_of_nil. lia.
Qed.

(** Four calls on a fresh map, the last one for a key already there. *)
Lemma after_calls_sorted_unique_witness :
  (after_calls Z.lt id
     [CallEmplace 3 30; CallAdd 1 (λ s : unit, (10, s)); CallFind 2;
      CallEmplace 3 99] tt).1 = zmap_1_3
  ∧ sorted Z.lt zmap_1_3
  ∧ NoDup zmap_1_3.*1
  ∧ emplace_if_not_found Z.lt id 2 20 zmap_1_3
    = (1%nat, [(1, 10); (2, 20); (3, 30)]).
Proof.
  pose proof (after_calls_sorted_unique Z.lt id
    [CallEmplace 3 30; CallAdd 1 (λ s : unit, (10, s)); CallFind 2;
     CallEmplace 3 99] tt) as (Hs & Hn & Hins).
  split; [reflexivity|]. split; [exact Hs|]. split; [exact Hn|].
  destruct (Hins 2 zmap_1_3_without_2) as (_ & _ & Hemplace & _).
  exact (Hemplace 20).
Defined.

Lemma emplace_twice_same_reference_witness :
  sorted Z.lt zmap_1_3
  ∧ emplace_if_not_found Z.lt id 2 20 zmap_1_3
    = (1%nat, [(1, 10); (2, 20); (3, 30)])
  ∧ (emplace_if_not_found Z.lt id 2 99 [(1, 10); (2, 20); (3, 30)]).1 = 1%nat
  ∧ (emplace_if_not_found Z.lt id 2 99 [(1, 10); (2, 20); (3, 30)]).2
    = [(1, 10); (2, 20); (3, 30)]
  ∧ deref [(1, 10); (2, 20); (3, 30)] 1 = Some 20.
Proof.
  pose proof (emplace_twice_same_reference Z.lt id zmap_1_3 2 20 99
                zmap_1_3_sorted) as (H1 & H2 & _ & _ & Hv & _).
  split; [exact zmap_1_3_sorted|]. split; [reflexivity|].
  split; [exact H1|]. split; [exact H2|]. exact (Hv zmap_1_3_without_2).
Defined.

(** A factory that yields 20 and adds one to the state of its caller, run
    for the absent key 2: one invocation, 20 stored in slot 1. *)
Lemma add_if_not_found_factory_calls_witness :
  sorted Z.lt zmap_1_3
  ∧ ¬ present 2 zmap_1_3
  ∧ add_if_not_found Z.lt 2 (counting (λ s : Z, (20, s + 1))) zmap_1_3 (5, 0%nat)
    = (1%nat, [(1, 10); (2, 20); (3, 30)], (6, 1%nat))
  ∧ 1%nat = S 0
  ∧ ([(1, 10); (2, 20); (3, 30)] : list (Z * Z)) !! 1%nat = Some (2, 20).
Proof.
  pose proof (add_if_not_found_factory_calls Z.lt (λ s : Z, (20, s + 1))
                zmap_1_3 2 5 0 zmap_1_3_sorted) as Hcalls.
  assert (Heval :
    add_if_not_found Z.lt 2 (counting (λ s : Z, (20, s + 1))) zmap_1_3 (5, 0%nat)
    = (1%nat, [(1, 10); (2, 20); (3, 30)], (6, 1%nat))) by reflexivity.
  rewrite Heval in Hcalls. destruct Hcalls as [_ Habsent].
  destruct (Habsent zmap_1_3_without_2) as (Hn & _ & Hslot & _).
  split; [exact zmap_1_3_sorted|]. split; [exact zmap_1_3_without_2|].
  split; [exact Heval|]. split; [exact Hn | exact Hslot].
Defined.

(** The same factory for the key 3, which is present: no invocation. *)
Example add_if_not_found_present_key :
  add_if_not_found Z.lt 3 (counting (λ s : Z, (20, s + 1))) zmap_1_3 (5, 0%nat)
  = (1%nat, zmap_1_3, (5, 0%nat)).
Proof. reflexivity. Qed.

Lemma present_key_frame_witness :
  sorted Z.lt zmap_1_3
  ∧ zmap_1_3 !! 1%nat = Some (3, 30)
  ∧ emplace_if_not_found Z.lt id 3 99 zmap_1_3 = (1%nat, zmap_1_3)
  ∧ add_if_not_found Z.lt 3 (λ s : Z, (99, s + 1)) zmap_1_3 5
    = (1%nat, zmap_1_3, 5)
  ∧ deref zmap_1_3 1 = Some 30.
Proof.
  split; [exact zmap_1_3_sorted|]. split; [reflexivity|].
  exact (present_key_frame Z.lt id (λ s : Z, (99, s + 1)) zmap_1_3 3 99 5 30 1
           zmap_1_3_sorted eq_refl).
Defined.

(** The scenario of the specification: [find] of "a" on the empty map
    answers nullptr, the first [emplace_if_not_found] stores 10, [find] then
    reaches it, and a second [emplace_if_not_found] with 99 leaves the 10. *)
Example scenario_empty_map :
  find string_lt "a"%string ([] : list (string * Z)) = None
  ∧ emplace_if_not_found string_lt id "a"%string 10 []
    = (0%nat, [("a"%string, 10)])
  ∧ find string_lt "a"%string [("a"%string, 10)] = Some 0%nat
  ∧ deref [("a"%string, 10)] 0 = Some 10
  ∧ emplace_if_not_found string_lt id "a"%string 99 [("a"%string, 10)]
    = (0%nat, [("a"%string, 10)]).
Proof. repeat split. Qed.

(** The same map asked for "A", which it does not hold and which sorts
    before "a": [find] answers with the slot of "a". *)
Example scenario_find_other_key :
  find string_lt "A"%string [("a"%string, 10)] = Some 0%nat
  ∧ find string_lt "b"%string [("a"%string, 10)] = None.
Proof. repeat split. Qed.

End TsmapFacts.

(** * Properties of the channel and the limiter *)

Module EventfdFacts.
Import Eventfd Scenario.

(** *** Integers *)

Lemma uint64_of_int64 z : to_uint64 (to_int64 z) = wrap64 z.
Proof.
  unfold to_uint64, to_int64, wrap64.
  rewrite <- Zminus_mod_idemp_l, Z.mod_mod by lia.
  rewrite Zminus_mod_idemp_l. f_equal. lia.
Qed.

Lemma wrap64_small z : 0 ≤ z < 2 ^ 64 → wrap64 z = z.
Proof. intros. unfold wrap64. by apply Z.mod_small. Qed.

Lemma wrap64_range z : 0 ≤ wrap64 z < 2 ^ 64.
Proof. unfold wrap64. apply Z.mod_pos_bound. lia. Qed.

(** *** The descriptor *)

Lemma async_read_Some f r f' :
  async_read f = Some (r, f') ↔
  counter f ≠ 0 ∧ r = to_int64 (counter f)
  ∧ f' = {| counter := 0; written := written f |}.
Proof.
  unfold async_read, eventfd_read.
  destruct (Z.eqb_spec (counter f) 0) as [Hz|Hz]; split.
  - done.
  - intros (? & _). done.
  - intros [= <- <-]. done.
  - intros (_ & -> & ->). done.
Qed.

Lemma async_read_None f : async_read f = None ↔ counter f = 0.
Proof.
  unfold async_read, eventfd_read.
  destruct (Z.eqb_spec (counter f) 0) as [Hz|Hz]; split; done.
Qed.

Lemma async_write_written count f :
  written (async_write count f).1 = written f ++ [count].
Proof.
  unfold async_write, eventfd_write. simpl.
  destruct (count =? UINT64_MAX); [done|].
  by destruct (UINT64_MAX - 1 <? counter f + count).
Qed.

(** Inside the limits of the kernel a write adds its count. *)
Lemma async_write_counter count f :
  count ≠ UINT64_MAX → counter f + count ≤ UINT64_MAX - 1 →
  async_write count f
  = ({| counter := counter f + count; written := written f ++ [count] |},
     Completed None 8).
Proof.
  intros Hmax Hsum. unfold async_write, eventfd_write. simpl.
  destruct (Z.eqb_spec count UINT64_MAX) as [?|_]; [done|].
  destruct (Z.ltb_spec (UINT64_MAX - 1) (counter f + count)) as [?|_]; [lia|done].
Qed.

(** *** [limiter::wait] *)

Lemma run_action_outstanding l a : m_outstanding (run_action l a) = m_outstanding l.
Proof. destruct a; simpl; [|done..]. unfold signal. by destruct (async_write _ _). Qed.

Lemma run_round_outstanding round l : m_outstanding (run_round round l) = m_outstanding l.
Proof.
  unfold run_round. revert l.
  induction round as [|a round IH]; intros l; simpl; [done|].
  by rewrite IH, run_action_outstanding.
Qed.

Lemma run_rounds_outstanding rounds l :
  m_outstanding (run_rounds rounds l) = m_outstanding l.
Proof.
  unfold run_rounds. revert l.
  induction rounds as [|r rounds IH]; intros l; simpl; [done|].
  by rewrite IH, run_round_outstanding.
Qed.

Lemma run_rounds_app rounds1 rounds2 l :
  run_rounds (rounds1 ++ rounds2) l = run_rounds rounds2 (run_rounds rounds1 l).
Proof. unfold run_rounds. by rewrite foldl_app. Qed.

(** [wait] returns at the first moment the descriptor is readable: after the
    rounds it used up, it takes the whole count, resets the descriptor and
    subtracts that count from [m_outstanding]. *)
Lemma wait_Some yield l count l' yield' :
  wait yield l = Some (count, l', yield') →
  ∃ rounds, yield = rounds ++ yield'
    ∧ let lw := run_rounds rounds l in
      counter (lfd lw) ≠ 0
      ∧ count = wrap64 (counter (lfd lw))
      ∧ l' = {| lfd := {| counter := 0; written := written (lfd lw) |};
               m_limit := m_limit lw;
               m_outstanding := wrap64 (m_outstanding l - count) |}
      ∧ (counter (lfd l) = 0 → rounds ≠ []).
Proof.
  revert l. induction yield as [|round yield IH]; intros l; simpl.
  - destruct (async_read (lfd l)) as [[r f']|] eqn:Hr; [|done].
    apply async_read_Some in Hr as (Hnz & -> & ->).
    intros [= <- <- <-]. exists []. rewrite uint64_of_int64. done.
  - destruct (async_read (lfd l)) as [[r f']|] eqn:Hr.
    + apply async_read_Some in Hr as (Hnz & -> & ->).
      intros [= <- <- <-]. exists []. rewrite uint64_of_int64. done.
    + intros Hw. apply IH in Hw as (rounds & -> & Hnz & Hc & Hl & _).
      exists (round :: rounds). split; [done|]. cbv zeta in *.
      change (run_rounds (round :: rounds) l)
        with (run_rounds rounds (run_round round l)).
      rewrite run_round_outstanding in Hl. done.
Qed.

Lemma wait_readable yield l :
  counter (lfd l) ≠ 0 →
  wait yield l
  = Some (wrap64 (counter (lfd l)),
          {| lfd := {| counter := 0; written := written (lfd l) |};
             m_limit := m_limit l;
             m_outstanding := wrap64 (m_outstanding l - wrap64 (counter (lfd l))) |},
          yield).
Proof.
  intros Hnz.
  assert (Hr : async_read (lfd l)
               = Some (to_int64 (counter (lfd l)),
                       {| counter := 0; written := written (lfd l) |}))
    by by apply async_read_Some.
  destruct yield; simpl; rewrite Hr; unfold subtract; by rewrite uint64_of_int64.
Qed.

Lemma wait_None yield l :
  wait yield l = None → counter (lfd l) = 0.
Proof.
  destruct yield; simpl;
    destruct (async_read (lfd l)) as [[r f']|] eqn:Hr; try done;
    by apply async_read_None in Hr.
Qed.

Lemma wait_turns yield l count l' yield' :
  wait yield l = Some (count, l', yield') →
  (turns yield' l' < turns yield l)%nat ∧ counter (lfd l') = 0.
Proof.
  intros Hw. apply wait_Some in Hw as (rounds & -> & Hnz & _ & -> & Hne).
  cbv zeta in *. unfold turns. simpl. split; [|done].
  rewrite length_app.
  destruct (Z.eqb_spec (counter (lfd l)) 0) as [Hz|Hz]; [|lia].
  destruct rounds; [by destruct Hne|]. simpl. lia.
Qed.


Lemma run_action_limit l1 l2 a :
  m_limit l1 = m_limit l2 → m_limit (run_action l1 a) = m_limit (run_action l2 a).
Proof.
  intros Heq. destruct a; simpl; [|by rewrite Heq..].
  unfold signal. by do 2 destruct (async_write _ _).
Qed.

Lemma run_rounds_limit rounds l1 l2 :
  m_limit l1 = m_limit l2 →
  m_limit (run_rounds rounds l1) = m_limit (run_rounds rounds l2).
Proof.
  unfold run_rounds. revert l1 l2.
  induction rounds as [|round rounds IH]; intros l1 l2 Heq; simpl; [done|].
  apply IH. unfold run_round. revert l1 l2 Heq.
  induction round as [|a round IHr]; intros l1 l2 Heq; simpl; [done|].
  by apply IHr, run_action_limit.
Qed.

(** *** Fuel *)

Lemma turns_pos yield l : (1 ≤ turns yield l)%nat.
Proof. unfold turns. destruct (counter (lfd l) =? 0); lia. Qed.

Lemma turns_le yield l : (turns yield l ≤ length yield + 2)%nat.
Proof. unfold turns. destruct (counter (lfd l) =? 0); lia. Qed.

(** With [turns] units of fuel the loop of [next_job] does not run out, and
    more fuel does not change what it returns. *)
Lemma next_job_loop_enough this fuel fuel' yield l :
  (turns yield l ≤ fuel)%nat → (turns yield l ≤ fuel')%nat →
  next_job_loop fuel this yield l = next_job_loop fuel' this yield l
  ∧ next_job_loop fuel this yield l ≠ OutOfFuel.
Proof.
  revert fuel' yield l. induction fuel as [|fuel IH]; intros fuel' yield l H1 H2.
  { pose proof (turns_pos yield l). lia. }
  destruct fuel' as [|fuel']; [pose proof (turns_pos yield l); lia|].
  simpl. destruct (admits l); [done|].
  destruct (wait yield l) as [[[count l'] yield']|] eqn:Hw; [|done].
  apply wait_turns in Hw as [Hlt _]. apply IH; lia.
Qed.

Lemma wait_for_all_outstanding_loop_enough fuel fuel' yield l :
  (turns yield l ≤ fuel)%nat → (turns yield l ≤ fuel')%nat →
  wait_for_all_outstanding_loop fuel yield l
  = wait_for_all_outstanding_loop fuel' yield l
  ∧ wait_for_all_outstanding_loop fuel yield l ≠ OutOfFuel.
Proof.
  revert fuel' yield l. induction fuel as [|fuel IH]; intros fuel' yield l H1 H2.
  { pose proof (turns_pos yield l). lia. }
  destruct fuel' as [|fuel']; [pose proof (turns_pos yield l); lia|].
  simpl. destruct (negb (m_outstanding l =? 0)); [|done].
  destruct (wait yield l) as [[[count l'] yield']|] eqn:Hw; [|done].
  apply wait_turns in Hw as [Hlt _]. apply IH; lia.
Qed.

(** The loops as equations on the functions without fuel. *)
Lemma next_job_unfold this yield l :
  next_job this yield l =
  if admits l then Returns (add_job this l).1 (add_job this l).2 yield
  else match wait yield l with
       | Some (_, l', yield') => next_job this yield' l'
       | None => Suspended
       end.
Proof.
  unfold next_job. replace (length yield + 2)%nat with (S (length yield + 1)) by lia.
  simpl. destruct (admits l); [done|].
  destruct (wait yield l) as [[[count l'] yield']|] eqn:Hw; [|done].
  apply wait_turns in Hw as [Hlt _].
  pose proof (turns_le yield l). pose proof (turns_le yield' l').
  apply next_job_loop_enough; lia.
Qed.

Lemma wait_for_all_outstanding_unfold yield l :
  wait_for_all_outstanding yield l =
  if negb (m_outstanding l =? 0) then
    match wait yield l with
    | Some (_, l', yield') => wait_for_all_outstanding yield' l'
    | None => Suspended
    end
  else Returns tt l yield.
Proof.
  unfold wait_for_all_outstanding.
  replace (length yield + 2)%nat with (S (length yield + 1)) by lia.
  simpl. destruct (negb (m_outstanding l =? 0)); [|done].
  destruct (wait yield l) as [[[count l'] yield']|] eqn:Hw; [|done].
  apply wait_turns in Hw as [Hlt _].
  pose proof (turns_le yield l). pose proof (turns_le yield' l').
  apply wait_for_all_outstanding_loop_enough; lia.
Qed.

(** *** What the loops return *)

(** A job is returned from a limiter state [l0] that passed the check, after
    the rounds used up on the way; the limit checked is the one those
    rounds left. *)
Lemma next_job_loop_Returns fuel this yield l j l' yield' :
  next_job_loop fuel this yield l = Returns j l' yield' →
  j = job_create this
  ∧ ∃ rounds l0,
      yield = rounds ++ yield'
      ∧ admits l0 = true
      ∧ l' = (add_job this l0).2
      ∧ m_limit l0 = m_limit (run_rounds rounds l)
      ∧ (admits l = true → l0 = l ∧ rounds = [])
      ∧ (admits l = false →
           counter (lfd l0) = 0 ∧ (counter (lfd l) = 0 → rounds ≠ [])).
Proof.
  revert yield l. induction fuel as [|fuel IH]; intros yield l; simpl; [done|].
  destruct (admits l) eqn:Ha.
  - intros [= <- <- <-]. split; [done|]. exists [], l. done.
  - destruct (wait yield l) as [[[count l1] yield1]|] eqn:Hw; [|done].
    intros Hr. apply IH in Hr as (-> & rounds2 & l0 & -> & Ha0 & -> & Hlim & Ht & Hf).
    split; [done|].
    apply wait_Some in Hw as (rounds1 & -> & Hnz & _ & Hl1 & Hne). cbv zeta in *.
    exists (rounds1 ++ rounds2), l0. split; [by rewrite <- app_assoc|].
    split; [done|]. split; [done|]. split; [|split; [done|]].
    + rewrite Hlim, run_rounds_app. apply run_rounds_limit. by rewrite Hl1.
    + intros _. split.
      * destruct (admits l1) eqn:Ha1.
        -- destruct (Ht eq_refl) as [-> _]. by rewrite Hl1.
        -- by destruct (Hf eq_refl).
      * intros Hz Happ. apply app_eq_nil in Happ as [-> _]. by apply Hne.
Qed.

Lemma wait_for_all_outstanding_loop_Returns fuel yield l u l' yield' :
  wait_for_all_outstanding_loop fuel yield l = Returns u l' yield' →
  m_outstanding l' = 0
  ∧ ∃ rounds, yield = rounds ++ yield'
      ∧ m_limit l' = m_limit (run_rounds rounds l)
      ∧ (m_outstanding l = 0 → l' = l ∧ rounds = []).
Proof.
  revert yield l. induction fuel as [|fuel IH]; intros yield l; simpl; [done|].
  destruct (Z.eqb_spec (m_outstanding l) 0) as [Hz|Hz]; simpl.
  - intros [= <- <- <-]. split; [done|]. exists []. done.
  - destruct (wait yield l) as [[[count l1] yield1]|] eqn:Hw; [|done].
    intros Hr. apply IH in Hr as (Hout & rounds2 & -> & Hlim & _).
    split; [done|].
    apply wait_Some in Hw as (rounds1 & -> & _ & _ & Hl1 & _). cbv zeta in *.
    exists (rounds1 ++ rounds2). split; [by rewrite <- app_assoc|]. split; [|done].
    rewrite Hlim, run_rounds_app. apply run_rounds_limit. by rewrite Hl1.
Qed.

(** *** The limit *)

(** C6: [increase_limit] stores and returns the limit plus the delta and
    [decrease_limit] the limit minus the delta, both modulo 2^64 and with
    nothing else changed; there is no floor: taking more than the limit
    holds leaves 2^64 minus the excess, not zero. *)
Theorem limit_adjust_wraps (d : Z) (l : limiter) :
  increase_limit d l
  = (wrap64 (m_limit l + d),
     {| lfd := lfd l; m_limit := wrap64 (m_limit l + d);
        m_outstanding := m_outstanding l |})
  ∧ decrease_limit d l
    = (wrap64 (m_limit l - d),
       {| lfd := lfd l; m_limit := wrap64 (m_limit l - d);
          m_outstanding := m_outstanding l |})
  ∧ (0 ≤ m_limit l < d → d < 2 ^ 64 →
     (decrease_limit d l).1 = 2 ^ 64 - (d - m_limit l)
     ∧ (decrease_limit d l).1 ≠ 0)
  ∧ (0 ≤ m_limit l → 0 ≤ d → m_limit l + d < 2 ^ 64 →
     (increase_limit d l).1 = m_limit l + d)
  ∧ (0 ≤ d ≤ m_limit l → m_limit l < 2 ^ 64 →
     (decrease_limit d l).1 = m_limit l - d).
Proof.
  split; [done|]. split; [done|]. simpl. unfold wrap64. split; [|split].
  - intros Hl Hd.
    assert (Hmod : (m_limit l - d) mod 2 ^ 64 = 2 ^ 64 - (d - m_limit l)).
    { symmetry. apply (Z.mod_unique _ _ (-1)); lia. }
    rewrite Hmod. lia.
  - intros Hl Hd Hsum. apply Z.mod_small. lia.
  - intros Hd Hl. apply Z.mod_small. lia.
Qed.

(** *** Admission *)

(** C3: [next_job] admits at once, with no round used up and the descriptor
    not read, exactly when the limit is 0 or [m_outstanding] is below it;
    otherwise it goes through [wait], which takes the whole count read off
    [m_outstanding], and checks again with the limiter as [wait] left it;
    a job it returns is new, not completed and bound to this limiter, and
    comes with [m_outstanding] one higher than at the check that let it
    through.  The function without fuel never runs out of it. *)
Theorem next_job_admission (this : nat) (yield : list (list action)) (l : limiter) :
  (admits l = true ↔ m_limit l = 0 ∨ m_outstanding l < m_limit l)
  ∧ (next_job this yield l
     = Returns (job_create this)
         {| lfd := lfd l; m_limit := m_limit l;
            m_outstanding := wrap64 (m_outstanding l + 1) |} yield
     ↔ m_limit l = 0 ∨ m_outstanding l < m_limit l)
  ∧ (¬ (m_limit l = 0 ∨ m_outstanding l < m_limit l) →
     next_job this yield l
     = match wait yield l with
       | Some (_, l', yield') => next_job this yield' l'
       | None => Suspended
       end)
  ∧ (∀ count l' yield', wait yield l = Some (count, l', yield') →
       ∃ rounds, yield = rounds ++ yield'
         ∧ count = wrap64 (counter (lfd (run_rounds rounds l)))
         ∧ m_outstanding l' = wrap64 (m_outstanding l - count)
         ∧ m_limit l' = m_limit (run_rounds rounds l)
         ∧ counter (lfd l') = 0)
  ∧ (∀ j l' yield', next_job this yield l = Returns j l' yield' →
       j = job_create this ∧ completed j = false ∧ limit j = this
       ∧ ∃ l0, (m_limit l0 = 0 ∨ m_outstanding l0 < m_limit l0)
           ∧ lfd l' = lfd l0 ∧ m_limit l' = m_limit l0
           ∧ m_outstanding l' = wrap64 (m_outstanding l0 + 1)
           ∧ (0 ≤ m_outstanding l0 < 2 ^ 64 - 1 →
              m_outstanding l' = m_outstanding l0 + 1))
  ∧ next_job this yield l ≠ OutOfFuel.
Proof.
  assert (Hadm : ∀ l0, admits l0 = true
                       ↔ m_limit l0 = 0 ∨ m_outstanding l0 < m_limit l0).
  { intros l0. unfold admits. rewrite orb_true_iff, Z.eqb_eq, Z.ltb_lt. done. }
  split; [apply Hadm|]. rewrite <- Hadm. split; [|split; [|split; [|split]]].
  - split.
    + intros Hr. destruct (admits l) eqn:Ha; [done|]. exfalso.
      apply next_job_loop_Returns in Hr as (_ & rounds & l0 & Hy & _ & Hl & _ & _ & Hf).
      destruct (Hf Ha) as [Hc0 Hne]. injection Hl as Hfd _ _.
      rewrite Hfd in Hne. specialize (Hne Hc0).
      apply Hne. apply (f_equal length) in Hy. rewrite length_app in Hy.
      destruct rounds; [done|]. simpl in Hy. lia.
    + intros Ha. by rewrite next_job_unfold, Ha.
  - intros Ha. apply not_true_is_false in Ha. by rewrite next_job_unfold, Ha.
  - intros count l' yield' Hw.
    apply wait_Some in Hw as (rounds & -> & _ & Hc & -> & _).
    exists rounds. done.
  - intros j l' yield' Hr.
    apply next_job_loop_Returns in Hr as (-> & rounds & l0 & _ & Ha & -> & _).
    split; [done|]. split; [done|]. split; [done|].
    exists l0. apply Hadm in Ha. split; [done|]. simpl.
    split; [done|]. split; [done|]. split; [done|].
    intros Hrange. apply wrap64_small. lia.
  - unfold next_job.
    apply (next_job_loop_enough this _ (length yield + 2) yield l); apply turns_le.
Qed.

(** *** Draining *)

(** C4: [wait_for_all_outstanding] returns only with [m_outstanding] at 0;
    as long as it is not 0 it goes through [wait], which takes the whole
    count read off [m_outstanding], and looks again; called with
    [m_outstanding] at 0 it returns at once, the limiter and the descriptor
    as they were and no round used up.  The function without fuel never
    runs out of it. *)
Theorem wait_for_all_outstanding_drains_to_zero
    (yield : list (list action)) (l : limiter) :
  (∀ u l' yield', wait_for_all_outstanding yield l = Returns u l' yield' →
     m_outstanding l' = 0)
  ∧ (m_outstanding l = 0 → wait_for_all_outstanding yield l = Returns tt l yield)
  ∧ (m_outstanding l ≠ 0 →
     wait_for_all_outstanding yield l
     = match wait yield l with
       | Some (_, l', yield') => wait_for_all_outstanding yield' l'
       | None => Suspended
       end)
  ∧ (∀ count l' yield', wait yield l = Some (count, l', yield') →
       ∃ rounds, yield = rounds ++ yield'
         ∧ count = wrap64 (counter (lfd (run_rounds rounds l)))
         ∧ m_outstanding l' = wrap64 (m_outstanding l - count)
         ∧ counter (lfd l') = 0)
  ∧ wait_for_all_outstanding yield l ≠ OutOfFuel.
Proof.
  split; [|split; [|split; [|split]]].
  - intros u l' yield' Hr.
    by apply wait_for_all_outstanding_loop_Returns in Hr as [Hz _].
  - intros Hz. rewrite wait_for_all_outstanding_unfold, Hz. done.
  - intros Hnz. rewrite wait_for_all_outstanding_unfold.
    by destruct (Z.eqb_spec (m_outstanding l) 0).
  - intros count l' yield' Hw.
    apply wait_Some in Hw as (rounds & -> & _ & Hc & -> & _).
    exists rounds. done.
  - unfold wait_for_all_outstanding.
    apply (wait_for_all_outstanding_loop_enough _ (length yield + 2) yield l);
      apply turns_le.
Qed.

(** It does return: with [n] jobs outstanding and nothing pending on the
    descriptor, [n] rounds that each complete one job drain the limiter. *)
Lemma wait_for_all_outstanding_returns (n : nat) rest l :
  counter (lfd l) = 0 → m_outstanding l = Z.of_nat n → Z.of_nat n < 2 ^ 64 →
  ∃ l', wait_for_all_outstanding (replicate n [Signal] ++ rest) l
        = Returns tt l' rest
        ∧ m_outstanding l' = 0 ∧ m_limit l' = m_limit l.
Proof.
  revert l. induction n as [|n IH]; intros l Hc Hout Hn.
  - exists l. rewrite wait_for_all_outstanding_unfold, Hout. done.
  - rewrite wait_for_all_outstanding_unfold.
    destruct (Z.eqb_spec (m_outstanding l) 0) as [?|_]; [lia|]. simpl.
    replace (async_read (lfd l)) with (@None (Z * fd))
      by (symmetry; by apply async_read_None).
    unfold signal. rewrite async_write_counter; [|done|rewrite Hc; done].
    simpl. rewrite wait_readable by (simpl; lia). simpl.
    rewrite Hc. change (0 + 1) with 1. rewrite (wrap64_small 1) by done.
    edestruct IH as (l' & -> & Hz & Hlim); [| |lia|].
    + done.
    + simpl. rewrite Hout. rewrite wrap64_small; lia.
    + exists l'. done.
Qed.

(** *** Jobs *)

Section jobs.
Context {E : Type}.
Implicit Types (efn : option errno → Z → E → E) (j : job) (e : E).
Implicit Types (σ : gmap nat limiter).

Lemma done_completed efn j σ e :
  completed j = true → done efn j σ e = (j, σ, e).
Proof. intros Hc. unfold done. by rewrite Hc. Qed.

Lemma done_first efn j σ e l :
  completed j = false → σ !! limit j = Some l →
  done efn j σ e
  = ({| completed := true; limit := limit j |},
     <[limit j := (signal l).1]> σ, on_write efn (signal l).2 e).
Proof.
  intros Hc Hl. unfold done. rewrite Hc, Hl. by destruct (signal l).
Qed.

(** For the limiter it belongs to, the first [done] of a job is the action
    [Signal] of the rounds. *)
Lemma done_first_Signal efn j σ e l :
  completed j = false → σ !! limit j = Some l →
  (done efn j σ e).1.2 !! limit j = Some (run_action l Signal).
Proof.
  intros Hc Hl. rewrite (done_first _ _ _ _ l) by done. simpl.
  apply lookup_insert_eq.
Qed.

Lemma done_calls_completed efns j σ e :
  completed j = true →
  foldl (λ '(j, σ, e) efn, done efn j σ e) (j, σ, e) efns = (j, σ, e).
Proof.
  intros Hc. induction efns as [|efn efns IH]; simpl; [done|].
  by rewrite done_completed.
Qed.

Lemma signal_fields l :
  written (lfd (signal l).1) = written (lfd l) ++ [1]
  ∧ m_limit (signal l).1 = m_limit l
  ∧ m_outstanding (signal l).1 = m_outstanding l.
Proof.
  unfold signal. pose proof (async_write_written 1 (lfd l)) as Hw.
  by destruct (async_write 1 (lfd l)).
Qed.

(** C2: over the life of a job that [next_job] returned for the limiter at
    [this], whatever explicit [done] calls its owner makes before the
    destructor runs, one write of the count 1 reaches the descriptor of
    that limiter and nothing else in the store changes.  Call by call: a
    [done] on a job not yet completed marks it and sends, a [done] on a
    completed job does nothing, and the destructor is [done] with the
    handler that does nothing. *)
Theorem job_signals_exactly_once (efns : list (option errno → Z → E → E))
    (this : nat) σ (l : limiter) e :
  σ !! this = Some l →
  (∃ l', lifetime efns (job_create this) σ e
         = ({| completed := true; limit := this |}, <[this := l']> σ,
            on_write (hd no_op efns) (signal l).2 e)
     ∧ l' = (signal l).1
     ∧ written (lfd l') = written (lfd l) ++ [1]
     ∧ m_limit l' = m_limit l ∧ m_outstanding l' = m_outstanding l
     ∧ (counter (lfd l) ≤ UINT64_MAX - 2 →
        counter (lfd l') = counter (lfd l) + 1))
  ∧ (∀ efn j σ0 e0 l0, completed j = false → σ0 !! limit j = Some l0 →
       done efn j σ0 e0
       = ({| completed := true; limit := limit j |},
          <[limit j := (signal l0).1]> σ0, on_write efn (signal l0).2 e0))
  ∧ (∀ efn j σ0 e0, completed j = true → done efn j σ0 e0 = (j, σ0, e0))
  ∧ (∀ j σ0 e0, destroy j σ0 e0 = done no_op j σ0 e0).
Proof.
  intros Hl. split; [|split; [|split]].
  - exists (signal l).1.
    destruct (signal_fields l) as (Hw & Hlim & Hout).
    split; [|split; [done|split; [done|split; [done|split; [done|]]]]].
    + unfold lifetime. destruct efns as [|efn efns]; simpl.
      * unfold destroy. by rewrite (done_first _ _ _ _ l).
      * rewrite (done_first _ _ _ _ l) by done. simpl.
        rewrite done_calls_completed by done.
        unfold destroy. by rewrite done_completed.
    + intros Hc. unfold signal.
      rewrite async_write_counter; [done|done|unfold UINT64_MAX in *; lia].
  - intros. by apply done_first.
  - intros. by apply done_completed.
  - done.
Qed.

End jobs.

(** *** The unbounded channel *)

Lemma total_app counts1 counts2 :
  total (counts1 ++ counts2) = total counts1 + total counts2.
Proof. unfold total. induction counts1; simpl; lia. Qed.

Lemma total_nonneg counts :
  Forall (λ n, 0 ≤ n < UINT64_MAX) counts → 0 ≤ total counts.
Proof. unfold total. induction 1 as [|n counts Hn _ IH]; simpl; lia. Qed.

Lemma produced_counter count u :
  0 ≤ count < UINT64_MAX → counter (ufd u) + count ≤ UINT64_MAX - 1 →
  produced count u
  = {| ufd := {| counter := counter (ufd u) + count;
                 written := written (ufd u) ++ [count] |} |}.
Proof.
  intros Hc Hsum. unfold produced. rewrite async_write_counter; [done|lia|done].
Qed.

(** Inside the limits of the kernel the counter holds the sum of what was
    produced. *)
Lemma produce_all_counter counts u :
  Forall (λ n, 0 ≤ n < UINT64_MAX) counts →
  counter (ufd u) + total counts ≤ UINT64_MAX - 1 →
  produce_all counts u
  = {| ufd := {| counter := counter (ufd u) + total counts;
                 written := written (ufd u) ++ counts |} |}.
Proof.
  unfold produce_all. intros Hall. revert u.
  induction Hall as [|n counts Hn Hall IH]; intros u Hsum; simpl.
  - rewrite Z.add_0_r, app_nil_r. by destruct u as [[]].
  - pose proof (total_nonneg counts Hall) as Hpos. unfold total in *.
    simpl in Hsum. cbv beta in Hn.
    rewrite (produced_counter n u) by lia. rewrite IH by (simpl; lia). simpl.
    rewrite <- app_assoc. do 2 f_equal. lia.
Qed.

Lemma consume_readable yield u :
  0 < counter (ufd u) < 2 ^ 64 →
  consume yield u
  = Some (counter (ufd u),
          {| ufd := {| counter := 0; written := written (ufd u) |} |}, yield).
Proof.
  intros Hc.
  assert (Hr : async_read (ufd u)
               = Some (to_int64 (counter (ufd u)),
                       {| counter := 0; written := written (ufd u) |}))
    by (apply async_read_Some; split; [lia|done]).
  destruct yield; simpl; rewrite Hr, uint64_of_int64, wrap64_small; done || lia.
Qed.

(** Whatever [consume] returns is the counter it found plus all that the
    rounds it sat through produced. *)
Lemma consume_Some yield u v u' yield' :
  0 ≤ counter (ufd u) →
  Forall (λ n, 0 ≤ n < UINT64_MAX) (concat yield) →
  counter (ufd u) + total (concat yield) ≤ UINT64_MAX - 1 →
  consume yield u = Some (v, u', yield') →
  ∃ rounds, yield = rounds ++ yield'
    ∧ v = counter (ufd u) + total (concat rounds)
    ∧ 0 < v
    ∧ u' = {| ufd := {| counter := 0;
                        written := written (ufd u) ++ concat rounds |} |}.
Proof.
  revert u. induction yield as [|round yield IH]; intros u Hc Hall Hsum.
  - destruct (Z.eqb_spec (counter (ufd u)) 0) as [Hz|Hz].
    + simpl. replace (async_read (ufd u)) with (@None (Z * fd)); [done|].
      symmetry. by apply async_read_None.
    + simpl in Hsum. unfold UINT64_MAX in Hsum.
      rewrite consume_readable by lia. intros [= <- <- <-].
      exists []. simpl. rewrite Z.add_0_r, app_nil_r. split; [done|].
      split; [done|]. split; [lia|done].
  - simpl in Hall, Hsum. apply Forall_app in Hall as [Hround Hall].
    rewrite total_app in Hsum.
    pose proof (total_nonneg _ Hround). pose proof (total_nonneg _ Hall).
    destruct (Z.eqb_spec (counter (ufd u)) 0) as [Hz|Hz].
    + simpl. replace (async_read (ufd u)) with (@None (Z * fd))
        by (symmetry; by apply async_read_None).
      rewrite produce_all_counter by (done || lia). intros Hr.
      apply IH in Hr as (rounds & -> & -> & Hv & ->); simpl; [|lia|done|lia].
      simpl in Hv. exists (round :: rounds). simpl. rewrite total_app, <- app_assoc.
      split; [done|]. split; [lia|]. split; [lia|done].
    + unfold UINT64_MAX in Hsum. rewrite consume_readable by lia.
      intros [= <- <- <-]. exists []. simpl. rewrite Z.add_0_r, app_nil_r.
      split; [done|]. split; [done|]. split; [lia|done].
Qed.

(** C5: after [produced(n1)], ..., [produced(nk)] on a channel whose count
    was at zero, as a [consume] leaves it, a [consume] returns n1 + ... + nk
    at once and leaves the count at zero again; and whenever it returns,
    also after sitting through rounds of further [produced] calls because
    the sum was still zero, the value is the sum of all units produced
    since the count was last at zero.  The values and their sum stay
    inside the limits of the kernel counter. *)
Theorem consume_returns_sum_of_produced (counts : list Z)
    (yield : list (list Z)) (u : unlimited) :
  counter (ufd u) = 0 →
  Forall (λ n, 0 ≤ n < UINT64_MAX) counts →
  total counts ≤ UINT64_MAX - 1 →
  (0 < total counts →
   consume yield (produce_all counts u)
   = Some (total counts,
           {| ufd := {| counter := 0; written := written (ufd u) ++ counts |} |},
           yield))
  ∧ (Forall (λ n, 0 ≤ n < UINT64_MAX) (concat yield) →
     total counts + total (concat yield) ≤ UINT64_MAX - 1 →
     ∀ v u' yield', consume yield (produce_all counts u) = Some (v, u', yield') →
       ∃ rounds, yield = rounds ++ yield'
         ∧ v = total (counts ++ concat rounds)
         ∧ counter (ufd u') = 0
         ∧ written (ufd u') = written (ufd u) ++ counts ++ concat rounds).
Proof.
  intros Hc Hall Hsum.
  rewrite produce_all_counter by (done || lia). rewrite Hc, Z.add_0_l. split.
  - intros Hpos. unfold UINT64_MAX in Hsum.
    rewrite consume_readable by (simpl; lia). done.
  - intros Hally Hsumy v u' yield' Hr.
    apply consume_Some in Hr as (rounds & -> & -> & _ & ->); simpl; [|
      by apply total_nonneg|done|lia].
    exists rounds. rewrite total_app, <- app_assoc. done.
Qed.

(** *** The theorems at concrete limiters and channels *)

Lemma job_signals_exactly_once_witness :
  ({[7%nat := full_limiter]} : gmap nat limiter) !! 7%nat = Some full_limiter
  ∧ lifetime [no_op; no_op] (job_create 7) {[7%nat := full_limiter]} tt
    = ({| completed := true; limit := 7 |},
       <[7%nat := {| lfd := {| counter := 1; written := [1] |};
                     m_limit := 2; m_outstanding := 2 |}]>
         {[7%nat := full_limiter]},
       tt).
Proof.
  assert (Hl : ({[7%nat := full_limiter]} : gmap nat limiter) !! 7%nat
               = Some full_limiter) by apply lookup_singleton_eq.
  split; [exact Hl|].
  destruct (job_signals_exactly_once [no_op; no_op] 7 {[7%nat := full_limiter]}
              full_limiter tt Hl) as ((l' & Hlife & -> & _) & _).
  exact Hlife.
Defined.

Lemma consume_returns_sum_of_produced_witness :
  counter (ufd {| ufd := fd_create |}) = 0
  ∧ Forall (λ n, 0 ≤ n < UINT64_MAX) [3; 4; 5]
  ∧ total [3; 4; 5] ≤ UINT64_MAX - 1
  ∧ consume [] (produce_all [3; 4; 5] {| ufd := fd_create |})
    = Some (12, {| ufd := {| counter := 0; written := [3; 4; 5] |} |}, []).
Proof.
  assert (Hall : Forall (λ n, 0 ≤ n < UINT64_MAX) [3; 4; 5])
    by (repeat constructor; unfold UINT64_MAX; lia).
  assert (Hsum : total [3; 4; 5] ≤ UINT64_MAX - 1)
    by (unfold total, UINT64_MAX; simpl; lia).
  split; [reflexivity|]. split; [exact Hall|]. split; [exact Hsum|].
  destruct (consume_returns_sum_of_produced [3; 4; 5] [] {| ufd := fd_create |}
              eq_refl Hall Hsum) as [Hnow _].
  apply Hnow. unfold total. simpl. lia.
Defined.

(** The scenario of the specification: with limit 2 two calls of [next_job]
    are admitted at once and leave 2 outstanding; a third is suspended; when
    the first job is done the suspended call is admitted and 2 are
    outstanding again. *)
Example scenario_limit_2 :
  next_job 7 [] (limiter_create 2)
  = Returns (job_create 7)
      {| lfd := fd_create; m_limit := 2; m_outstanding := 1 |} []
  ∧ next_job 7 [] {| lfd := fd_create; m_limit := 2; m_outstanding := 1 |}
    = Returns (job_create 7) full_limiter []
  ∧ next_job 7 [] full_limiter = Suspended
  ∧ next_job 7 [[Signal]] full_limiter
    = Returns (job_create 7)
        {| lfd := {| counter := 0; written := [1] |};
           m_limit := 2; m_outstanding := 2 |} [].
Proof. repeat split. Qed.

(** A batch: two jobs complete before the suspended call runs again, and
    both are taken off [m_outstanding]; a limit raised meanwhile does not
    wake the call, it is read at the next check. *)
Example scenario_batch :
  next_job 7 [[IncreaseLimit 1]; [Signal; Signal]] full_limiter
  = Returns (job_create 7)
      {| lfd := {| counter := 0; written := [1; 1] |};
         m_limit := 3; m_outstanding := 1 |} []
  ∧ wait_for_all_outstanding [[Signal; Signal]] full_limiter
    = Returns tt
        {| lfd := {| counter := 0; written := [1; 1] |};
           m_limit := 2; m_outstanding := 0 |} [].
Proof. repeat split. Qed.

(** No floor under the limit: 3 - 5 is 2^64 - 2. *)
Example scenario_decrease_below_zero :
  (decrease_limit 5 (limiter_create 3)).1 = 18446744073709551614.
Proof. reflexivity. Qed.

End EventfdFacts.

(** * Further properties of the map *)

Module TsmapExtra.
Import Tsmap Scenario TsmapFacts.

Section any_vector.
Context {K V : Type} `{EqDecision K}.
Context (key_lt : relation K) `{!RelDecision key_lt}.
Implicit Types (map : list (K * V)) (k : K).

(** The loop never leaves the range it is given, whatever the order of the
    elements. *)
Lemma lower_bound_loop_range map k first len :
  (first + len ≤ length map)%nat →
  (first ≤ lower_bound_loop key_lt map k first len ≤ first + len)%nat.
Proof.
  revert first. induction len as [len IH] using lt_wf_ind. intros first Hlen.
  destruct len as [|n]; simp lower_bound_loop; [lia|].
  pose proof (Nat.div_lt (S n) 2 ltac:(lia) ltac:(lia)) as Hhalf.
  destruct (lookup_lt_is_Some_2 map (first + S n / 2)%nat ltac:(lia)) as [m Hm].
  rewrite Hm. simp lower_bound_loop.
  destruct (comp key_lt m k); simp lower_bound_loop;
    set (half := (S n / 2)%nat) in *.
  - pose proof (IH (S n - half - 1)%nat ltac:(lia) (first + half + 1)%nat
                  ltac:(lia)). lia.
  - pose proof (IH half ltac:(lia) first ltac:(lia)). lia.
Qed.

Lemma lower_bound_le_length map k :
  (lower_bound key_lt map k ≤ length map)%nat.
Proof.
  unfold lower_bound.
  pose proof (lower_bound_loop_range map k 0 (length map) ltac:(lia)). lia.
Qed.

Lemma emplace_lookup bound kv map :
  (bound ≤ length map)%nat → emplace bound kv map !! bound = Some kv.
Proof.
  intros Hb. unfold emplace. apply list_lookup_middle. rewrite length_take. lia.
Qed.

Lemma emplace_Permutation bound kv map : emplace bound kv map ≡ₚ kv :: map.
Proof.
  unfold emplace. rewrite <- Permutation_middle. by rewrite take_drop.
Qed.


Lemma returned_key_at {Args St} (construct : Args → V)
    (lambda : St → V * St) map k (args : Args) (s : St) :
  key_at (emplace_if_not_found key_lt construct k args map).2
         (emplace_if_not_found key_lt construct k args map).1 = Some k
  ∧ key_at (add_if_not_found key_lt k lambda map s).1.2
           (add_if_not_found key_lt k lambda map s).1.1 = Some k.
Proof.
  pose proof (lower_bound_le_length map k) as Hle.
  unfold emplace_if_not_found, add_if_not_found, key_at.
  destruct (holds_key map (lower_bound key_lt map k) k) eqn:Hh.
  - apply holds_key_true in Hh as [v Hv]. simpl. by rewrite Hv.
  - destruct (lambda s) as [v s']. simpl. by rewrite !emplace_lookup.
Qed.

(** X2: on every vector, sorted or not, the reference that
    [emplace_if_not_found] and [add_if_not_found] return designates an entry
    of the vector after the call, and that entry has the key asked for. *)
Theorem returned_reference_has_key {Args St} (construct : Args → V)
    (lambda : St → V * St) map k (args : Args) (s : St) :
  (∃ v, (emplace_if_not_found key_lt construct k args map).2
        !! (emplace_if_not_found key_lt construct k args map).1 = Some (k, v))
  ∧ (∃ v, (add_if_not_found key_lt k lambda map s).1.2
          !! (add_if_not_found key_lt k lambda map s).1.1 = Some (k, v)).
Proof.
  destruct (returned_key_at construct lambda map k args s) as [He Ha].
  unfold key_at in He, Ha.
  apply fmap_Some in He as ([k1 v1] & He & Hk1).
  apply fmap_Some in Ha as ([k2 v2] & Ha & Hk2). simpl in *. subst k1 k2.
  split; eauto.
Qed.

(** Nothing is taken out of the vector by a call. *)
Lemma do_call_keeps_entries {Args St} (construct : Args → V)
    (ms : list (K * V) * St) (c : @call K V Args St) e :
  e ∈ ms.1 → e ∈ (do_call key_lt construct ms c).1.
Proof.
  intros He. destruct c as [k|k args|k lambda]; simpl; [done| |].
  - unfold emplace_if_not_found. destruct (holds_key _ _ _); simpl; [done|].
    rewrite emplace_Permutation. by right.
  - unfold add_if_not_found. destruct (holds_key _ _ _); simpl; [done|].
    destruct (lambda ms.2) as [v s']. simpl.
    rewrite emplace_Permutation. by right.
Qed.

Lemma foldl_do_call_keeps_entries {Args St} (construct : Args → V)
    (calls : list (@call K V Args St)) (ms : list (K * V) * St) e :
  e ∈ ms.1 → e ∈ (foldl (do_call key_lt construct) ms calls).1.
Proof.
  revert ms. induction calls as [|c calls IH]; intros ms He; simpl; [done|].
  by apply IH, do_call_keeps_entries.
Qed.

(** X3: no sequence of [find], [emplace_if_not_found] and
    [add_if_not_found] calls removes an entry or changes the value stored
    in it: every pair of the vector before is a pair of the vector after,
    and the vector never gets shorter. *)
Theorem calls_keep_entries {Args St} (construct : Args → V)
    (calls : list (@call K V Args St)) (ms : list (K * V) * St) :
  (∀ e, e ∈ ms.1 → e ∈ (foldl (do_call key_lt construct) ms calls).1)
  ∧ (length ms.1 ≤ length (foldl (do_call key_lt construct) ms calls).1)%nat.
Proof.
  split; [intros e; apply foldl_do_call_keeps_entries|].
  revert ms. induction calls as [|c calls IH]; intros ms; simpl; [done|].
  etransitivity; [|apply IH].
  destruct c as [k|k args|k lambda]; simpl; [done| |].
  - unfold emplace_if_not_found. destruct (holds_key _ _ _); simpl; [done|].
    rewrite emplace_Permutation. simpl. lia.
  - unfold add_if_not_found. destruct (holds_key _ _ _); simpl; [done|].
    destruct (lambda ms.2) as [v s']. simpl.
    rewrite emplace_Permutation. simpl. lia.
Qed.

End any_vector.

Section ordered.
Context {K V : Type} `{EqDecision K}.
Context (key_lt : relation K) `{!RelDecision key_lt}.
Context `{!StrictOrder key_lt}.
Implicit Types (map : list (K * V)) (k : K).

Lemma filter_prefix {A} (P : A → Prop) `{!∀ x, Decision (P x)} (l : list A) r :
  (∀ i x, (i < r)%nat → l !! i = Some x → P x) →
  (∀ i x, (r ≤ i)%nat → l !! i = Some x → ¬ P x) →
  filter P l = take r l.
Proof.
  revert r. induction l as [|a l IH]; intros r Hlo Hhi.
  - by rewrite take_nil.
  - destruct r as [|r].
    + rewrite filter_cons_False by (apply (Hhi 0%nat); [lia|done]).
      rewrite (IH 0%nat); [by rewrite take_0|intros; lia|].
      intros i x _ Hx. apply (Hhi (S i)); [lia|done].
    + rewrite filter_cons_True by (apply (Hlo 0%nat); [lia|done]).
      simpl. f_equal. apply IH.
      * intros i x Hi Hx. apply (Hlo (S i)); [lia|done].
      * intros i x Hi Hx. apply (Hhi (S i)); [lia|done].
Qed.

(** X4: on a sorted vector the binary search of [lower_bound] finds what a
    scan from the left would: its result is the number of entries whose key
    is less than [k]. *)
Theorem lower_bound_counts_smaller map k :
  sorted key_lt map →
  lower_bound key_lt map k = length (filter (λ e, key_lt e.1 k) map).
Proof.
  intros Hs. destruct (lower_bound_spec key_lt map k Hs) as (Hr & Hlo & Hhi).
  rewrite (filter_prefix _ map (lower_bound key_lt map k)); [|done..].
  rewrite length_take. lia.
Qed.

(** X5: on a sorted vector [find] answers nullptr exactly when every key
    stored is less than the key asked for; on the empty map it always
    does. *)
Theorem find_nullptr_iff map k :
  sorted key_lt map →
  (find key_lt k map = None ↔ Forall (λ k', key_lt k' k) map.*1)
  ∧ find key_lt k ([] : list (K * V)) = None.
Proof.
  intros Hs. split; [|done]. split.
  - intros Hf. pose proof (find_spec key_lt map k Hs) as Hspec.
    by rewrite Hf in Hspec.
  - intros Hall. destruct (lower_bound_spec key_lt map k Hs) as (Hr & _ & Hhi).
    unfold find, vend. case_decide as Hend; [done|]. exfalso.
    destruct (lookup_lt_is_Some_2 map (lower_bound key_lt map k) ltac:(lia))
      as [e He].
    apply (Hhi _ e (le_n _) He).
    rewrite Forall_fmap, Forall_lookup in Hall. by apply (Hall _ e He).
Qed.

Lemma sorted_entries map :
  sorted key_lt map → StronglySorted (λ a b : K * V, key_lt a.1 b.1) map.
Proof.
  unfold sorted. induction map as [|a map IH]; simpl; intros Hs; [constructor|].
  apply StronglySorted_cons in Hs as [Hall Hs]. constructor; [by apply IH|].
  by rewrite Forall_fmap in Hall.
Qed.

(** A sorted vector is determined by its entries. *)
Lemma sorted_Permutation_eq map1 map2 :
  sorted key_lt map1 → sorted key_lt map2 → map1 ≡ₚ map2 → map1 = map2.
Proof.
  intros Hs1 Hs2. apply StronglySorted_unique_strong with
    (R := λ a b : K * V, key_lt a.1 b.1); [|by apply sorted_entries..].
  intros x1 x2 _ _ H12 H21. exfalso.
  apply (irreflexivity key_lt x1.1). by transitivity x2.1.
Qed.

(** Each key of a sorted vector has one value. *)
Lemma sorted_one_value map k v v' :
  sorted key_lt map → (k, v) ∈ map → (k, v') ∈ map → v = v'.
Proof.
  intros Hs [i Hi]%list_elem_of_lookup [j Hj]%list_elem_of_lookup.
  pose proof (present_at_lower_bound key_lt map k i (k, v) Hs Hi eq_refl) as Hbi.
  pose proof (present_at_lower_bound key_lt map k j (k, v') Hs Hj eq_refl) as Hbj.
  rewrite Hbi in Hbj. subst j. congruence.
Qed.

Context `{!Trichotomy key_lt}.

Lemma foldl_do_call_sorted {Args St} (construct : Args → V)
    (calls : list (@call K V Args St)) (ms : list (K * V) * St) :
  sorted key_lt ms.1 → sorted key_lt (foldl (do_call key_lt construct) ms calls).1.
Proof.
  revert ms. induction calls as [|c calls IH]; intros ms Hs; simpl; [done|].
  by apply IH, (do_call_sorted key_lt).
Qed.

(** X7: the first value stored under a key stays: if a sorted vector holds
    [v] under [k], then after any further calls, whatever their arguments
    and factories, the value under [k] is still [v]. *)
Theorem first_value_wins {Args St} (construct : Args → V)
    (calls : list (@call K V Args St)) (ms : list (K * V) * St) k v v' :
  sorted key_lt ms.1 → (k, v) ∈ ms.1 →
  (k, v') ∈ (foldl (do_call key_lt construct) ms calls).1 → v' = v.
Proof.
  intros Hs Hv Hv'. symmetry.
  eapply sorted_one_value; [|exact (foldl_do_call_keeps_entries key_lt construct
                                      calls ms (k, v) Hv)|exact Hv'].
  by apply foldl_do_call_sorted.
Qed.

Lemma emplace_if_not_found_Permutation {Args} (construct : Args → V)
    map k (args : Args) :
  sorted key_lt map →
  (emplace_if_not_found key_lt construct k args map).2
  ≡ₚ if decide (k ∈ map.*1) then map else (k, construct args) :: map.
Proof.
  intros Hs. unfold emplace_if_not_found.
  destruct (holds_key map (lower_bound key_lt map k) k) eqn:Hh; simpl.
  - apply (holds_key_present key_lt) in Hh; [|done]. by rewrite decide_True.
  - apply (holds_key_absent key_lt) in Hh; [|done].
    rewrite decide_False by done. apply emplace_Permutation.
Qed.

(** X8: an inserting call adds exactly its entry: for a key that a sorted
    vector does not hold, the vector after [emplace_if_not_found] or
    [add_if_not_found] consists of the entries before and the new one, is
    longer by one, and holds the new key besides the keys it had. *)
Theorem insert_adds_one_entry {Args St} (construct : Args → V)
    (lambda : St → V * St) map k (args : Args) (s : St) :
  sorted key_lt map → ¬ present k map →
  let map1 := (emplace_if_not_found key_lt construct k args map).2 in
  let map2 := (add_if_not_found key_lt k lambda map s).1.2 in
  map1 ≡ₚ (k, construct args) :: map
  ∧ map2 ≡ₚ (k, (lambda s).1) :: map
  ∧ length map1 = S (length map) ∧ length map2 = S (length map)
  ∧ (∀ k', present k' map1 ↔ k' = k ∨ present k' map)
  ∧ (∀ k', present k' map2 ↔ k' = k ∨ present k' map).
Proof.
  intros Hs Hk map1 map2.
  apply (holds_key_absent key_lt) in Hk; [|done].
  assert (H1 : map1 ≡ₚ (k, construct args) :: map).
  { subst map1. unfold emplace_if_not_found. rewrite Hk. apply emplace_Permutation. }
  assert (H2 : map2 ≡ₚ (k, (lambda s).1) :: map).
  { subst map2. unfold add_if_not_found. rewrite Hk.
    destruct (lambda s) as [v s']. apply emplace_Permutation. }
  split; [done|]. split; [done|].
  split; [by rewrite H1|]. split; [by rewrite H2|].
  unfold present. split; intros k'.
  - rewrite H1, fmap_cons, elem_of_cons. done.
  - rewrite H2, fmap_cons, elem_of_cons. done.
Qed.

(** X6: what [emplace_if_not_found] stores, [find] finds: on a sorted
    vector, [find] of the key just passed to [emplace_if_not_found] returns
    the very reference that call returned, and it designates the key; for a
    key that was new the value there is the one built from the arguments. *)
Theorem find_after_emplace {Args} (construct : Args → V) map k (args : Args) :
  sorted key_lt map →
  let r := (emplace_if_not_found key_lt construct k args map).1 in
  let map' := (emplace_if_not_found key_lt construct k args map).2 in
  find key_lt k map' = Some r
  ∧ key_at map' r = Some k
  ∧ (¬ present k map → deref map' r = Some (construct args)).
Proof.
  intros Hs r map'.
  assert (Hs' : sorted key_lt map')
    by by apply (emplace_if_not_found_sorted key_lt).
  destruct (returned_key_at key_lt construct
              (λ s : unit, (construct args, s)) map k args tt) as [Hkey _].
  fold r map' in Hkey. unfold key_at in Hkey.
  destruct (map' !! r) as [[k' v]|] eqn:Hr; [|done]. simpl in Hkey.
  injection Hkey as ->.
  assert (Hb : lower_bound key_lt map' k = r)
    by by eapply (present_at_lower_bound key_lt).
  split; [|split].
  - unfold find, vend. rewrite Hb. case_decide as Hend; [|done].
    apply lookup_lt_Some in Hr. lia.
  - unfold key_at. by rewrite Hr.
  - intros Hk. apply (holds_key_absent key_lt) in Hk; [|done].
    subst r map'. unfold emplace_if_not_found in *. rewrite Hk in *. simpl in *.
    rewrite emplace_lookup in Hr by apply lower_bound_le_length.
    unfold deref. rewrite emplace_lookup by apply lower_bound_le_length.
    done.
Qed.

(** X9: the order of two insertions does not matter: on a sorted vector,
    [emplace_if_not_found] for two different keys gives the same vector
    whichever call comes first. *)
Theorem emplace_if_not_found_commute {Args} (construct : Args → V)
    map k1 k2 (args1 args2 : Args) :
  sorted key_lt map → k1 ≠ k2 →
  (emplace_if_not_found key_lt construct k2 args2
     (emplace_if_not_found key_lt construct k1 args1 map).2).2
  = (emplace_if_not_found key_lt construct k1 args1
       (emplace_if_not_found key_lt construct k2 args2 map).2).2.
Proof.
  intros Hs Hne.
  set (m1 := (emplace_if_not_found key_lt construct k1 args1 map).2).
  set (m2 := (emplace_if_not_found key_lt construct k2 args2 map).2).
  assert (Hs1 : sorted key_lt m1) by by apply (emplace_if_not_found_sorted key_lt).
  assert (Hs2 : sorted key_lt m2) by by apply (emplace_if_not_found_sorted key_lt).
  apply sorted_Permutation_eq; [by apply (emplace_if_not_found_sorted key_lt)..|].
  rewrite !emplace_if_not_found_Permutation by done.
  pose proof (emplace_if_not_found_Permutation construct map k1 args1 Hs) as H1.
  pose proof (emplace_if_not_found_Permutation construct map k2 args2 Hs) as H2.
  fold m1 in H1. fold m2 in H2.
  assert (Hcons : ∀ (k k' : K) (v : V), k ≠ k' →
            k' ∈ ((k, v) :: map).*1 ↔ k' ∈ map.*1).
  { intros k k' v Hkk. rewrite fmap_cons, elem_of_cons. simpl.
    split; [intros [Heq|Hin]; [by subst|done]|by right]. }
  destruct (decide (k1 ∈ map.*1)) as [Hin1|Hin1],
           (decide (k2 ∈ map.*1)) as [Hin2|Hin2].
  - rewrite decide_True by by rewrite H1. rewrite decide_True by by rewrite H2.
    by rewrite H1, H2.
  - rewrite decide_False by by rewrite H1. rewrite decide_True
      by (rewrite H2; by apply Hcons).
    by rewrite H1, H2.
  - rewrite decide_True by (rewrite H1; by apply Hcons).
    rewrite decide_False by by rewrite H2.
    by rewrite H1, H2.
  - rewrite decide_False by (rewrite H1; by rewrite Hcons).
    rewrite decide_False by (rewrite H2; by rewrite Hcons).
    rewrite H1, H2. apply perm_swap.
Qed.

End ordered.

Section comparisons.
Context {K V : Type}.
Context (key_lt : relation K) `{!RelDecision key_lt}.
Implicit Types (map : list (K * V)) (k : K).
Import TsmapCost.

Lemma log2_half (n : nat) :
  (1 ≤ n / 2)%nat → (Nat.log2 (n / 2) + 1 ≤ Nat.log2 n)%nat.
Proof.
  intros Hh. rewrite Nat.add_1_r, <- Nat.log2_double by lia.
  apply Nat.log2_le_mono.
  pose proof (Nat.div_mod_eq n 2). lia.
Qed.

(** The counted loop returns what the loop returns, and compares at most
    [log2 len + 1] times. *)
Lemma lower_bound_loop_counted_spec map k first len :
  (first + len ≤ length map)%nat →
  (lower_bound_loop_counted key_lt map k first len).1
  = lower_bound_loop key_lt map k first len
  ∧ (len = 0%nat → (lower_bound_loop_counted key_lt map k first len).2 = 0%nat)
  ∧ ((lower_bound_loop_counted key_lt map k first len).2 ≤ Nat.log2 len + 1)%nat.
Proof.
  revert first. induction len as [len IH] using lt_wf_ind. intros first Hlen.
  destruct len as [|n]; simp lower_bound_loop lower_bound_loop_counted.
  { simpl. split; [done|]. split; [done|lia]. }
  pose proof (Nat.div_lt (S n) 2 ltac:(lia) ltac:(lia)) as Hhalf.
  destruct (lookup_lt_is_Some_2 map (first + S n / 2)%nat ltac:(lia)) as [m Hm].
  rewrite Hm. simp lower_bound_loop lower_bound_loop_counted.
  destruct (comp key_lt m k); simp lower_bound_loop lower_bound_loop_counted;
    unfold compared; cbn [fst snd].
  - destruct (IH (S n - S n / 2 - 1)%nat ltac:(lia) (first + S n / 2 + 1)%nat
                ltac:(lia)) as (Hr & Hz & Hc).
    split; [done|]. split; [done|].
    destruct (decide (S n - S n / 2 - 1 = 0)%nat) as [Hzero|Hpos].
    + rewrite (Hz Hzero). lia.
    + assert (Hmono : (Nat.log2 (S n - S n / 2 - 1) ≤ Nat.log2 (S n / 2))%nat).
      { apply Nat.log2_le_mono. pose proof (Nat.div_mod_eq (S n) 2).
        pose proof (Nat.mod_upper_bound (S n) 2 ltac:(lia)). lia. }
      assert (Hh : (1 ≤ S n / 2)%nat).
      { pose proof (Nat.div_mod_eq (S n) 2).
        pose proof (Nat.mod_upper_bound (S n) 2 ltac:(lia)). lia. }
      pose proof (log2_half (S n) Hh). lia.
  - destruct (IH (S n / 2)%nat ltac:(lia) first ltac:(lia)) as (Hr & Hz & Hc).
    split; [done|]. split; [done|].
    destruct (decide (S n / 2 = 0)%nat) as [Hzero|Hpos].
    + rewrite (Hz Hzero). lia.
    + pose proof (log2_half (S n) ltac:(lia)). lia.
Qed.

(** X10: [lower_bound] looks at no more than [log2 n + 1] of the [n]
    entries of the vector, whatever their order: the loop with its
    comparisons counted returns what [lower_bound] returns and counts at
    most that many; on the empty vector it compares nothing. *)
Theorem lower_bound_logarithmic map k :
  (lower_bound_loop_counted key_lt map k 0 (length map)).1
  = lower_bound key_lt map k
  ∧ ((lower_bound_loop_counted key_lt map k 0 (length map)).2
     ≤ Nat.log2 (length map) + 1)%nat
  ∧ (lower_bound_loop_counted key_lt ([] : list (K * V)) k 0 0).2 = 0%nat.
Proof.
  destruct (lower_bound_loop_counted_spec map k 0 (length map) ltac:(lia))
    as (Hr & _ & Hc).
  split; [done|]. split; [done|]. by simp lower_bound_loop_counted.
Qed.

End comparisons.

(** *** The theorems at concrete maps *)

Lemma lower_bound_counts_smaller_witness :
  sorted Z.lt zmap_1_3
  ∧ lower_bound Z.lt zmap_1_3 2 = 1%nat
  ∧ length (filter (λ e : Z * Z, e.1 < 2) zmap_1_3) = 1%nat.
Proof.
  pose proof (lower_bound_counts_smaller Z.lt zmap_1_3 2 zmap_1_3_sorted) as Hb.
  split; [exact zmap_1_3_sorted|]. split; [reflexivity|].
  rewrite <- Hb. reflexivity.
Defined.

Lemma find_nullptr_iff_witness :
  sorted Z.lt zmap_1_3
  ∧ Forall (λ k', k' < 4) zmap_1_3.*1
  ∧ find Z.lt 4 zmap_1_3 = None.
Proof.
  assert (Hall : Forall (λ k', k' < 4) zmap_1_3.*1)
    by (simpl; repeat constructor; lia).
  split; [exact zmap_1_3_sorted|]. split; [exact Hall|].
  exact (proj2 (proj1 (find_nullptr_iff Z.lt zmap_1_3 4 zmap_1_3_sorted)) Hall).
Defined.

Lemma find_after_emplace_witness :
  sorted Z.lt zmap_1_3
  ∧ find Z.lt 2 (emplace_if_not_found Z.lt id 2 20 zmap_1_3).2
    = Some (emplace_if_not_found Z.lt id 2 20 zmap_1_3).1
  ∧ deref (emplace_if_not_found Z.lt id 2 20 zmap_1_3).2
          (emplace_if_not_found Z.lt id 2 20 zmap_1_3).1 = Some 20.
Proof.
  destruct (find_after_emplace Z.lt id zmap_1_3 2 20 zmap_1_3_sorted)
    as (Hfind & _ & Hnew).
  split; [exact zmap_1_3_sorted|]. split; [exact Hfind|].
  exact (Hnew zmap_1_3_without_2).
Defined.

Example zmap_1_3_holds_3 : (3, 30) ∈ zmap_1_3.
Proof. unfold zmap_1_3. apply elem_of_cons. right. apply elem_of_cons. by left. Qed.

(** Later calls for the key 3, with other values, leave the 30. *)
Lemma first_value_wins_witness :
  sorted Z.lt zmap_1_3
  ∧ (3, 30) ∈ zmap_1_3
  ∧ (foldl (do_call Z.lt id) (zmap_1_3, tt)
       [CallEmplace 3 99; CallAdd 3 (λ s : unit, (77, s)); CallEmplace 2 20]).1
    = [(1, 10); (2, 20); (3, 30)]
  ∧ ∀ v', (3, v') ∈ ([(1, 10); (2, 20); (3, 30)] : list (Z * Z)) → v' = 30.
Proof.
  assert (Hrun :
    (foldl (do_call Z.lt id) (zmap_1_3, tt)
       [CallEmplace 3 99; CallAdd 3 (λ s : unit, (77, s)); CallEmplace 2 20]).1
    = [(1, 10); (2, 20); (3, 30)]) by reflexivity.
  split; [exact zmap_1_3_sorted|]. split; [exact zmap_1_3_holds_3|].
  split; [exact Hrun|]. intros v' Hv'. rewrite <- Hrun in Hv'.
  exact (first_value_wins Z.lt id _ (zmap_1_3, tt) 3 30 v'
           zmap_1_3_sorted zmap_1_3_holds_3 Hv').
Defined.

Lemma insert_adds_one_entry_witness :
  sorted Z.lt zmap_1_3 ∧ ¬ present 2 zmap_1_3
  ∧ (emplace_if_not_found Z.lt id 2 20 zmap_1_3).2 ≡ₚ (2, 20) :: zmap_1_3
  ∧ length (emplace_if_not_found Z.lt id 2 20 zmap_1_3).2 = 3%nat.
Proof.
  destruct (insert_adds_one_entry Z.lt id (λ s : unit, (20, s)) zmap_1_3 2 20 tt
              zmap_1_3_sorted zmap_1_3_without_2) as (Hperm & _ & Hlen & _).
  split; [exact zmap_1_3_sorted|]. split; [exact zmap_1_3_without_2|].
  split; [exact Hperm | exact Hlen].
Defined.

Lemma emplace_if_not_found_commute_witness :
  sorted Z.lt zmap_1_3 ∧ (2 : Z) ≠ 0
  ∧ (emplace_if_not_found Z.lt id 0 5
       (emplace_if_not_found Z.lt id 2 20 zmap_1_3).2).2
    = [(0, 5); (1, 10); (2, 20); (3, 30)]
  ∧ (emplace_if_not_found Z.lt id 2 20
       (emplace_if_not_found Z.lt id 0 5 zmap_1_3).2).2
    = [(0, 5); (1, 10); (2, 20); (3, 30)].
Proof.
  assert (Hne : (2 : Z) ≠ 0) by lia.
  pose proof (emplace_if_not_found_commute Z.lt id zmap_1_3 2 0 20 5
                zmap_1_3_sorted Hne) as Hcomm.
  split; [exact zmap_1_3_sorted|]. split; [exact Hne|].
  split; [reflexivity|]. rewrite <- Hcomm. reflexivity.
Defined.

End TsmapExtra.

(** * Further properties of the channel and the limiter *)

Module EventfdExtra.
Import Eventfd EventfdDrivers Scenario EventfdFacts.

(** *** The descriptor *)

(** X11: [fd::async_read] hands the count out as [int64_t]: a count below
    2^63 as it is, a count from 2^63 on as the negative number 2^64 less;
    stored in a [uint64_t] again, as [wait] and [consume] do, it is the
    count the kernel held, and the descriptor is left at zero. *)
Theorem async_read_signed (f : fd) :
  0 < counter f < 2 ^ 64 →
  ∃ r, async_read f = Some (r, {| counter := 0; written := written f |})
    ∧ r = (if counter f <? 2 ^ 63 then counter f else counter f - 2 ^ 64)
    ∧ (r < 0 ↔ 2 ^ 63 ≤ counter f)
    ∧ to_uint64 r = counter f.
Proof.
  intros Hc. exists (to_int64 (counter f)).
  split; [apply async_read_Some; split; [lia|done]|].
  assert (Hr : to_int64 (counter f)
               = if counter f <? 2 ^ 63 then counter f else counter f - 2 ^ 64).
  { unfold to_int64. destruct (Z.ltb_spec (counter f) (2 ^ 63)) as [Hlt|Hge].
    - rewrite Z.mod_small by lia. lia.
    - assert (Hmod : (counter f + 2 ^ 63) mod 2 ^ 64 = counter f - 2 ^ 63).
      { symmetry. apply (Z.mod_unique _ _ 1); lia. }
      rewrite Hmod. lia. }
  split; [done|]. split.
  - rewrite Hr. destruct (Z.ltb_spec (counter f) (2 ^ 63)); lia.
  - rewrite uint64_of_int64. apply wrap64_small. lia.
Qed.

Lemma async_read_signed_witness :
  0 < counter {| counter := 2 ^ 63; written := [] |} < 2 ^ 64
  ∧ ∃ r, async_read {| counter := 2 ^ 63; written := [] |}
         = Some (r, {| counter := 0; written := [] |})
      ∧ r = - 2 ^ 63 ∧ to_uint64 r = 2 ^ 63.
Proof.
  assert (Hc : 0 < counter {| counter := 2 ^ 63; written := [] |} < 2 ^ 64)
    by (simpl; lia).
  split; [exact Hc|].
  destruct (async_read_signed {| counter := 2 ^ 63; written := [] |} Hc)
    as (r & Hread & Hr & _ & Hu).
  exists r. split; [exact Hread|]. split; [|exact Hu].
  rewrite Hr. reflexivity.
Defined.

(** *** The limit *)

(** X12: [decrease_limit(d)] after [increase_limit(d)], and the other way
    round, give the limit back, also when the step in between wrapped
    around. *)
Theorem limit_adjust_round_trip (d : Z) (l : limiter) :
  0 ≤ m_limit l < 2 ^ 64 →
  (decrease_limit d (increase_limit d l).2).2 = l
  ∧ (increase_limit d (decrease_limit d l).2).2 = l
  ∧ (decrease_limit d (increase_limit d l).2).1 = m_limit l.
Proof.
  intros Hl. destruct l as [f L out]. simpl in *. unfold wrap64.
  assert (H1 : ((L + d) mod 2 ^ 64 - d) mod 2 ^ 64 = L).
  { rewrite Zminus_mod_idemp_l. replace (L + d - d) with L by lia.
    by apply Z.mod_small. }
  assert (H2 : ((L - d) mod 2 ^ 64 + d) mod 2 ^ 64 = L).
  { rewrite Zplus_mod_idemp_l. replace (L - d + d) with L by lia.
    by apply Z.mod_small. }
  by rewrite H1, H2.
Qed.

Lemma limit_adjust_round_trip_witness :
  0 ≤ m_limit (limiter_create 3) < 2 ^ 64
  ∧ (increase_limit 5 (decrease_limit 5 (limiter_create 3)).2).2
    = limiter_create 3.
Proof.
  assert (Hl : 0 ≤ m_limit (limiter_create 3) < 2 ^ 64) by (simpl; lia).
  split; [exact Hl|].
  exact (proj1 (proj2 (limit_adjust_round_trip 5 (limiter_create 3) Hl))).
Defined.

(** *** The bound on the jobs in flight *)

Lemma run_action_in_range l a : in_range l → in_range (run_action l a).
Proof.
  intros [Hl Ho]. destruct a; simpl.
  - destruct (signal_fields l) as (_ & Hlim & Hout).
    unfold in_range. by rewrite Hlim, Hout.
  - split; [apply wrap64_range|done].
  - split; [apply wrap64_range|done].
Qed.

Lemma run_rounds_in_range rounds l : in_range l → in_range (run_rounds rounds l).
Proof.
  unfold run_rounds. revert l.
  induction rounds as [|round rounds IH]; intros l Hl; simpl; [done|].
  apply IH. unfold run_round. revert l Hl.
  induction round as [|a round IHr]; intros l Hl; simpl; [done|].
  by apply IHr, run_action_in_range.
Qed.

Lemma wait_in_range yield l count l' yield' :
  in_range l → wait yield l = Some (count, l', yield') → in_range l'.
Proof.
  intros Hl Hw. apply wait_Some in Hw as (rounds & _ & _ & _ & -> & _).
  destruct (run_rounds_in_range rounds l Hl) as [Hlim _].
  split; [done|apply wrap64_range].
Qed.

Lemma next_job_loop_bound fuel this yield l j l' yield' :
  in_range l → next_job_loop fuel this yield l = Returns j l' yield' →
  in_range l' ∧ (m_limit l' = 0 ∨ 1 ≤ m_outstanding l' ≤ m_limit l').
Proof.
  revert yield l. induction fuel as [|fuel IH]; intros yield l Hl; simpl; [done|].
  destruct (admits l) eqn:Ha.
  - intros [= <- <- <-]. destruct Hl as [Hlim Hout]. unfold in_range. simpl.
    unfold admits in Ha. apply orb_true_iff in Ha as [Hz|Hlt].
    + apply Z.eqb_eq in Hz. split; [|by left].
      split; [done|apply wrap64_range].
    + apply Z.ltb_lt in Hlt. rewrite wrap64_small by lia.
      split; [split; lia|right; lia].
  - destruct (wait yield l) as [[[count l1] yield1]|] eqn:Hw; [|done].
    apply IH. by eapply wait_in_range.
Qed.

(** X13: [next_job] never lets more jobs in than the limit: with the two
    counters holding [uint64_t] values, whenever it returns, after whatever
    the other tasks did in between, the limit it last read is 0 or
    [m_outstanding] is at most that limit. *)
Theorem next_job_keeps_bound (this : nat) (yield : list (list action))
    (l : limiter) j l' yield' :
  in_range l → next_job this yield l = Returns j l' yield' →
  in_range l' ∧ (m_limit l' = 0 ∨ 1 ≤ m_outstanding l' ≤ m_limit l').
Proof. intros Hl Hr. by eapply next_job_loop_bound. Qed.

Lemma next_job_keeps_bound_witness :
  in_range full_limiter
  ∧ next_job 7 [[DecreaseLimit 1]; [Signal; Signal]] full_limiter
    = Returns (job_create 7)
        {| lfd := {| counter := 0; written := [1; 1] |};
           m_limit := 1; m_outstanding := 1 |} []
  ∧ (1 = 0 ∨ 1 ≤ 1 ≤ 1).
Proof.
  assert (Hl : in_range full_limiter) by (unfold in_range; simpl; lia).
  assert (Hr : next_job 7 [[DecreaseLimit 1]; [Signal; Signal]] full_limiter
               = Returns (job_create 7)
                   {| lfd := {| counter := 0; written := [1; 1] |};
                      m_limit := 1; m_outstanding := 1 |} []) by reflexivity.
  split; [exact Hl|]. split; [exact Hr|].
  exact (proj2 (next_job_keeps_bound 7 _ full_limiter _ _ _ Hl Hr)).
Defined.

(** *** How many jobs a limit lets in *)

Lemma next_jobs_admitted (n : nat) this f L m :
  (L = 0 ∨ m + Z.of_nat n ≤ L) → 0 ≤ m → m + Z.of_nat n < 2 ^ 64 →
  next_jobs n this {| lfd := f; m_limit := L; m_outstanding := m |}
  = Some {| lfd := f; m_limit := L; m_outstanding := m + Z.of_nat n |}.
Proof.
  revert m. induction n as [|n IH]; intros m HL Hm Hn; simpl.
  - by rewrite Z.add_0_r.
  - rewrite next_job_unfold.
    assert (Ha : admits {| lfd := f; m_limit := L; m_outstanding := m |} = true).
    { unfold admits. simpl. apply orb_true_iff.
      destruct HL as [->|HL]; [by left|right]. apply Z.ltb_lt. lia. }
    rewrite Ha. simpl. rewrite wrap64_small by lia.
    rewrite IH by lia. do 2 f_equal. lia.
Qed.

Lemma next_job_full this f L m :
  counter f = 0 → L ≠ 0 → L ≤ m →
  next_job this [] {| lfd := f; m_limit := L; m_outstanding := m |} = Suspended.
Proof.
  intros Hc HL Hm. rewrite next_job_unfold.
  assert (Ha : admits {| lfd := f; m_limit := L; m_outstanding := m |} = false).
  { unfold admits. simpl. apply orb_false_iff. split.
    - by apply Z.eqb_neq.
    - apply Z.ltb_ge. lia. }
  rewrite Ha. simpl.
  replace (async_read f) with (@None (Z * fd)); [done|].
  symmetry. by apply async_read_None.
Qed.

Lemma next_jobs_app (a b : nat) this l :
  next_jobs (a + b) this l
  = match next_jobs a this l with
    | Some l' => next_jobs b this l'
    | None => None
    end.
Proof.
  revert l. induction a as [|a IH]; intros l; simpl; [done|].
  by destruct (next_job this [] l).
Qed.

(** X14: a limit of [L] lets exactly [L] jobs in: on a new limiter, [n]
    calls of [next_job] in a row, with no job completing meanwhile, all
    return, leaving [n] outstanding, if and only if the limit is 0 or [n]
    is at most the limit; with a nonzero limit the call after the [L]th is
    suspended. *)
Theorem limit_admits_exactly (L : Z) (n : nat) (this : nat) :
  0 ≤ L < 2 ^ 64 → Z.of_nat n < 2 ^ 64 →
  (next_jobs n this (limiter_create L)
   = Some {| lfd := fd_create; m_limit := L; m_outstanding := Z.of_nat n |}
   ↔ L = 0 ∨ Z.of_nat n ≤ L)
  ∧ (L ≠ 0 → L < Z.of_nat n → next_jobs n this (limiter_create L) = None).
Proof.
  intros HL Hn.
  assert (Hok : L = 0 ∨ Z.of_nat n ≤ L →
    next_jobs n this (limiter_create L)
    = Some {| lfd := fd_create; m_limit := L; m_outstanding := Z.of_nat n |}).
  { intros Hcase. unfold limiter_create.
    rewrite (next_jobs_admitted n this fd_create L 0) by lia. done. }
  assert (Hblocked : L ≠ 0 → L < Z.of_nat n →
    next_jobs n this (limiter_create L) = None).
  { intros Hnz Hlt.
    replace n with (Z.to_nat L + S (n - Z.to_nat L - 1))%nat by lia.
    rewrite next_jobs_app. unfold limiter_create.
    rewrite (next_jobs_admitted (Z.to_nat L) this fd_create L 0) by lia.
    simpl. rewrite next_job_full; [done|done|done|lia]. }
  split; [|done]. split; [|done].
  intros Hsome. destruct (decide (L = 0)) as [?|Hnz]; [by left|right].
  destruct (Z.le_gt_cases (Z.of_nat n) L) as [?|Hgt]; [done|].
  by rewrite Hblocked in Hsome by lia.
Qed.

Lemma limit_admits_exactly_witness :
  0 ≤ 2 < 2 ^ 64 ∧ Z.of_nat 3 < 2 ^ 64
  ∧ next_jobs 2 7 (limiter_create 2) = Some full_limiter
  ∧ next_jobs 3 7 (limiter_create 2) = None.
Proof.
  assert (HL : 0 ≤ 2 < 2 ^ 64) by lia.
  assert (Hn : Z.of_nat 3 < 2 ^ 64) by (simpl; lia).
  split; [exact HL|]. split; [exact Hn|]. split; [reflexivity|].
  apply (proj2 (limit_admits_exactly 2 3 7 HL Hn)); simpl; lia.
Defined.

(** *** Completions and the suspended caller *)

Lemma run_round_completions (c : nat) l :
  counter (lfd l) + Z.of_nat c ≤ UINT64_MAX - 1 →
  run_round (completions c) l
  = {| lfd := {| counter := counter (lfd l) + Z.of_nat c;
                 written := written (lfd l) ++ replicate c 1 |};
       m_limit := m_limit l; m_outstanding := m_outstanding l |}.
Proof.
  unfold run_round, completions. revert l.
  induction c as [|c IH]; intros l Hc.
  - simpl. rewrite Z.add_0_r, app_nil_r. by destruct l as [[] ? ?].
  - cbn [replicate foldl run_action]. unfold signal.
    rewrite async_write_counter; [|done|lia]. cbn [fst].
    rewrite IH by (simpl; lia). simpl.
    rewrite <- app_assoc. simpl. do 2 f_equal. lia.
Qed.

(** X15: a caller suspended in [next_job] is let in by the completions that
    bring [m_outstanding] below the limit, and by no fewer.  With a nonzero
    limit reached or exceeded (the limit may have been decreased under the
    jobs in flight) and nothing pending on the descriptor, a round in which
    [c] jobs complete lets the call return if [m_outstanding - c] is below
    the limit, with [m_outstanding - c + 1] outstanding; if it is not, the
    call has taken the [c] off and is suspended again. *)
Theorem completions_release (c : nat) (this : nat) (l : limiter)
    (rest : list (list action)) :
  counter (lfd l) = 0 → 0 < m_limit l ≤ m_outstanding l →
  m_outstanding l < UINT64_MAX → (1 ≤ c)%nat → Z.of_nat c ≤ m_outstanding l →
  let l1 := {| lfd := {| counter := 0;
                         written := written (lfd l) ++ replicate c 1 |};
               m_limit := m_limit l;
               m_outstanding := m_outstanding l - Z.of_nat c |} in
  (m_outstanding l - Z.of_nat c < m_limit l →
   next_job this (completions c :: rest) l
   = Returns (job_create this)
       {| lfd := lfd l1; m_limit := m_limit l;
          m_outstanding := m_outstanding l - Z.of_nat c + 1 |} rest)
  ∧ (m_limit l ≤ m_outstanding l - Z.of_nat c →
     next_job this (completions c :: rest) l = next_job this rest l1
     ∧ next_job this [completions c] l = Suspended).
Proof.
  intros Hc Hfull Hout Hc1 Hcle l1. unfold UINT64_MAX in Hout.
  assert (Ha : admits l = false).
  { unfold admits. apply orb_false_iff. split.
    - apply Z.eqb_neq. lia.
    - apply Z.ltb_ge. lia. }
  assert (Hstep : ∀ ys, next_job this (completions c :: ys) l = next_job this ys l1).
  { intros ys. rewrite next_job_unfold, Ha. simpl.
    replace (async_read (lfd l)) with (@None (Z * fd))
      by (symmetry; by apply async_read_None).
    rewrite run_round_completions by (rewrite Hc; unfold UINT64_MAX; lia).
    rewrite wait_readable by (simpl; lia). simpl. rewrite Hc, Z.add_0_l.
    rewrite (wrap64_small (Z.of_nat c)) by lia.
    rewrite (wrap64_small (m_outstanding l - Z.of_nat c)) by lia. done. }
  split.
  - intros Hlt. rewrite Hstep, next_job_unfold.
    assert (Ha1 : admits l1 = true).
    { unfold admits. simpl. apply orb_true_iff. right. apply Z.ltb_lt. lia. }
    rewrite Ha1. simpl. rewrite wrap64_small by lia. done.
  - intros Hge. split; [apply Hstep|].
    rewrite Hstep. apply next_job_full; [done|lia|done].
Qed.

Lemma completions_release_witness :
  counter (lfd full_limiter) = 0
  ∧ 0 < m_limit full_limiter ≤ m_outstanding full_limiter
  ∧ next_job 7 [completions 2] full_limiter
    = Returns (job_create 7)
        {| lfd := {| counter := 0; written := [1; 1] |};
           m_limit := 2; m_outstanding := 2 - Z.of_nat 2 + 1 |} [].
Proof.
  assert (Hfull : 0 < m_limit full_limiter ≤ m_outstanding full_limiter)
    by (simpl; lia).
  split; [reflexivity|]. split; [exact Hfull|].
  assert (Hout : m_outstanding full_limiter < UINT64_MAX)
    by (unfold UINT64_MAX; simpl; lia).
  assert (Hc1 : (1 ≤ 2)%nat) by lia.
  assert (Hcle : Z.of_nat 2 ≤ m_outstanding full_limiter) by (simpl; lia).
  destruct (completions_release 2 7 full_limiter [] eq_refl Hfull Hout Hc1 Hcle)
    as [Hrel _].
  apply Hrel. simpl. lia.
Defined.

(** *** Draining *)

(** X16: [wait_for_all_outstanding] returns as soon as every outstanding job
    has completed, however the completions are batched: with nothing
    pending on the descriptor, rounds in which [c1], [c2], ... jobs complete
    (each at least one, together as many as are outstanding) are all used
    up, and the call returns with [m_outstanding] at 0, the limit as it was
    and the descriptor read empty. *)
Theorem drain_returns_when_jobs_complete (counts : list nat) (l : limiter)
    (rest : list (list action)) :
  counter (lfd l) = 0 → Forall (λ c, 1 ≤ c)%nat counts →
  m_outstanding l = Z.of_nat (sum_list counts) → m_outstanding l < UINT64_MAX →
  wait_for_all_outstanding ((completions <$> counts) ++ rest) l
  = Returns tt
      {| lfd := {| counter := 0;
                   written := written (lfd l) ++ replicate (sum_list counts) 1 |};
         m_limit := m_limit l; m_outstanding := 0 |} rest.
Proof.
  intros Hc Hall. revert l Hc. unfold UINT64_MAX.
  induction Hall as [|c counts Hc1 Hall IH]; intros l Hc Hout Hlt.
  - simpl in *. rewrite wait_for_all_outstanding_unfold, Hout. simpl.
    rewrite app_nil_r. destruct l as [[] ? ?]. simpl in *. by subst.
  - simpl in Hout. rewrite wait_for_all_outstanding_unfold.
    destruct (Z.eqb_spec (m_outstanding l) 0) as [?|_]; [lia|].
    cbn [negb fmap list_fmap app wait].
    replace (async_read (lfd l)) with (@None (Z * fd))
      by (symmetry; by apply async_read_None).
    rewrite run_round_completions by (rewrite Hc; unfold UINT64_MAX; lia).
    rewrite wait_readable by (simpl; lia). simpl. rewrite Hc, Z.add_0_l.
    rewrite (wrap64_small (Z.of_nat c)) by lia.
    rewrite IH; simpl.
    + rewrite <- app_assoc, replicate_add. done.
    + done.
    + rewrite Hout. rewrite wrap64_small; lia.
    + rewrite wrap64_small; lia.
Qed.

Lemma drain_returns_when_jobs_complete_witness :
  counter (lfd full_limiter) = 0
  ∧ Forall (λ c, 1 ≤ c)%nat [2%nat]
  ∧ wait_for_all_outstanding [completions 2] full_limiter
    = Returns tt
        {| lfd := {| counter := 0; written := [1; 1] |};
           m_limit := 2; m_outstanding := 0 |} [].
Proof.
  assert (Hall : Forall (λ c, 1 ≤ c)%nat [2%nat]) by (repeat constructor).
  split; [reflexivity|]. split; [exact Hall|].
  apply (drain_returns_when_jobs_complete [2%nat] full_limiter [] eq_refl Hall);
    [reflexivity|unfold UINT64_MAX; simpl; lia].
Defined.

(** *** The channel *)

(** X17: a unit is consumed once: whatever [consume] returned, the channel
    is left at zero, and a second [consume] finds nothing and stays
    suspended until something is produced again, when it returns just
    that. *)
Theorem consume_leaves_nothing (yield : list (list Z)) (u : unlimited)
    v u' yield' (count : Z) :
  consume yield u = Some (v, u', yield') →
  counter (ufd u') = 0
  ∧ consume [] u' = None
  ∧ (0 < count < UINT64_MAX →
     consume [[count]] u'
     = Some (count, {| ufd := {| counter := 0;
                                 written := written (ufd u') ++ [count] |} |}, [])).
Proof.
  intros Hr.
  assert (Hz : counter (ufd u') = 0).
  { revert u Hr. induction yield as [|round yield IH]; intros u; simpl.
    - destruct (async_read (ufd u)) as [[r f']|] eqn:Hread; [|done].
      apply async_read_Some in Hread as (_ & _ & ->). by intros [= _ <- _].
    - destruct (async_read (ufd u)) as [[r f']|] eqn:Hread.
      + apply async_read_Some in Hread as (_ & _ & ->). by intros [= _ <- _].
      + apply IH. }
  assert (Hnone : async_read (ufd u') = None) by by apply async_read_None.
  split; [done|]. split; [simpl; by rewrite Hnone|].
  intros Hcount. simpl. rewrite Hnone. simpl.
  rewrite produced_counter by (rewrite ?Hz; unfold UINT64_MAX in *; lia).
  unfold UINT64_MAX in Hcount.
  assert (Hread : async_read {| counter := counter (ufd u') + count;
                                written := written (ufd u') ++ [count] |}
                  = Some (to_int64 count,
                          {| counter := 0; written := written (ufd u') ++ [count] |})).
  { apply async_read_Some. simpl. rewrite Hz. split; [lia|done]. }
  simpl. rewrite Hread, uint64_of_int64, wrap64_small by lia. done.
Qed.

Lemma consume_leaves_nothing_witness :
  consume [] (produce_all [3; 4] {| ufd := fd_create |})
  = Some (7, {| ufd := {| counter := 0; written := [3; 4] |} |}, [])
  ∧ consume [] {| ufd := {| counter := 0; written := [3; 4] |} |} = None.
Proof.
  assert (Hr : consume [] (produce_all [3; 4] {| ufd := fd_create |})
               = Some (7, {| ufd := {| counter := 0; written := [3; 4] |} |}, []))
    by reflexivity.
  split; [exact Hr|].
  exact (proj1 (proj2 (consume_leaves_nothing [] _ 7 _ [] 1 Hr))).
Defined.

(** *** From admission to draining *)

(** X18: one job from start to end.  On a limiter with nothing outstanding
    and nothing pending, [next_job] returns a job at once; the [done] of
    that job, through the reference the job holds, puts one completion on
    the descriptor of that limiter in the store; and
    [wait_for_all_outstanding] then returns without being suspended, with
    nothing outstanding, the limit as it was and the descriptor empty. *)
Theorem admit_done_drain {E : Type} (efn : option errno → Z → E → E)
    (this : nat) (l : limiter) (e : E) (yield : list (list action)) :
  counter (lfd l) = 0 → m_outstanding l = 0 → 0 ≤ m_limit l →
  ∃ l1 l2,
    next_job this yield l = Returns (job_create this) l1 yield
    ∧ m_outstanding l1 = 1
    ∧ (done efn (job_create this) {[this := l1]} e).1
      = ({| completed := true; limit := this |}, {[this := l2]})
    ∧ wait_for_all_outstanding yield l2
      = Returns tt
          {| lfd := {| counter := 0; written := written (lfd l) ++ [1] |};
             m_limit := m_limit l; m_outstanding := 0 |} yield.
Proof.
  intros Hc Hout Hlim.
  set (l1 := {| lfd := lfd l; m_limit := m_limit l; m_outstanding := 1 |}).
  set (l2 := {| lfd := {| counter := 1; written := written (lfd l) ++ [1] |};
                m_limit := m_limit l; m_outstanding := 1 |}).
  exists l1, l2.
  assert (Ha : admits l = true).
  { unfold admits. rewrite Hout. apply orb_true_iff.
    destruct (Z.eqb_spec (m_limit l) 0) as [?|Hnz]; [by left|right].
    apply Z.ltb_lt. lia. }
  assert (Hsig : signal l1 = (l2, Completed None 8)).
  { unfold signal. simpl. rewrite async_write_counter;
      [|done|rewrite Hc; unfold UINT64_MAX; lia]. by rewrite Hc. }
  split; [|split; [done|split]].
  - rewrite next_job_unfold, Ha. simpl. by rewrite Hout.
  - rewrite (done_first efn (job_create this) {[this := l1]} e l1);
      [|done|simpl; apply lookup_singleton_eq].
    simpl. rewrite Hsig. simpl. by rewrite insert_singleton_eq.
  - rewrite wait_for_all_outstanding_unfold. simpl.
    rewrite wait_readable by (simpl; lia). simpl.
    rewrite wait_for_all_outstanding_unfold. simpl. done.
Qed.

Lemma admit_done_drain_witness :
  counter (lfd (limiter_create 2)) = 0
  ∧ m_outstanding (limiter_create 2) = 0
  ∧ ∃ l1 l2,
      next_job 7 [] (limiter_create 2) = Returns (job_create 7) l1 []
      ∧ (done (@no_op unit) (job_create 7) {[7%nat := l1]} tt).1
        = ({| completed := true; limit := 7 |}, {[7%nat := l2]})
      ∧ wait_for_all_outstanding [] l2
        = Returns tt
            {| lfd := {| counter := 0; written := [1] |};
               m_limit := 2; m_outstanding := 0 |} [].
Proof.
  assert (Hlim : 0 ≤ m_limit (limiter_create 2)) by (simpl; lia).
  destruct (admit_done_drain (@no_op unit) 7 (limiter_create 2) tt []
              eq_refl eq_refl Hlim) as (l1 & l2 & Hn & _ & Hd & Hw).
  split; [reflexivity|]. split; [reflexivity|].
  exists l1, l2. split; [exact Hn|]. split; [exact Hd | exact Hw].
Defined.

End EventfdExtra.
